(** * FlexOS UEFI hand-off: get_memory_map and exit_boot_services

    A shallow embedding of
      src/boot/uefi/boot_services/get_memory_map.c
      src/boot/uefi/runtime_services/exit_boot_services.c
    The firmware is an explicit state machine reached through the table of
    boot services; every call the C code makes through that table is
    recorded, in order, together with what the firmware answered. *)

From Stdlib Require Import ZArith List Bool Lia String.
Import ListNotations.
Local Open Scope Z_scope.

(** ** Machine types *)

(** uefi/types.h is not under src/.  UINTN is the unsigned integer of the
    native width; the specification fixes 64-bit targets (8-byte words), so
    UINTN arithmetic wraps modulo 2^64. *)
Definition UINTN := Z.
Definition UINTN_BITS : Z := 64.
Definition to_UINTN (z : Z) : UINTN := z mod 2 ^ UINTN_BITS.

Definition UINT32 := Z.
Definition pointer := Z.
Definition NULL : pointer := 0.
Definition EFI_HANDLE := pointer.
Definition EFI_STATUS := UINTN.

(** sizeof(UINT64) *)
Definition sizeof_UINT64 : Z := 8.

(** ** What the missing headers provide

    uefi/status.h and uefi/memory.h are not under src/.  The status codes,
    the EFI_ERROR macro and the pool type EfiLoaderData that the two
    functions use are taken as parameters. *)
Class uefi_headers := {
  EFI_SUCCESS : EFI_STATUS;
  EFI_INVALID_PARAMETER : EFI_STATUS;
  EFI_BUFFER_TOO_SMALL : EFI_STATUS;
  EFI_NOT_READY : EFI_STATUS;
  EFI_DEVICE_ERROR : EFI_STATUS;
  EFI_ABORTED : EFI_STATUS;
  EFI_ERROR : EFI_STATUS -> bool;
  EfiLoaderData : Z
}.

(** What the proofs below need to know about those parameters: success is
    not an error, the named error codes are. *)
Class uefi_status_laws `{uefi_headers} : Prop := {
  success_is_no_error : EFI_ERROR EFI_SUCCESS = false;
  invalid_parameter_is_error : EFI_ERROR EFI_INVALID_PARAMETER = true;
  not_ready_is_error : EFI_ERROR EFI_NOT_READY = true;
  device_error_is_error : EFI_ERROR EFI_DEVICE_ERROR = true
}.

(** ** The firmware service boundary *)

(** What one BS->GetMemoryMap call leaves behind: its status and the values
    of the four locations it was given pointers to (a location the firmware
    did not write keeps the value that was passed in). *)
Record MemoryMapReply := {
  reply_Status : EFI_STATUS;
  reply_MemoryMapSize : UINTN;
  reply_MapKey : UINTN;
  reply_DescriptorSize : UINTN;
  reply_DescriptorVersion : UINT32
}.

(** EFI_BOOT_SERVICES, the table of function pointers, over a firmware state
    F the caller cannot see.  In/out locations are passed by value and
    returned by value. *)
Record EFI_BOOT_SERVICES (F : Type) := {
  GetMemoryMap :
    UINTN -> pointer -> UINTN -> UINTN -> UINT32 -> F -> MemoryMapReply * F;
  AllocatePool : Z -> UINTN -> pointer -> F -> (EFI_STATUS * pointer) * F;
  FreePool : pointer -> F -> EFI_STATUS * F;
  ExitBootServices : EFI_HANDLE -> UINTN -> F -> EFI_STATUS * F
}.
Arguments GetMemoryMap {F}.
Arguments AllocatePool {F}.
Arguments FreePool {F}.
Arguments ExitBootServices {F}.

(** EFI_SYSTEM_TABLE, as far as the code looks into it; None is a null
    BootServices pointer.  The global gST is an [option] of it, None being
    a null gST. *)
Record EFI_SYSTEM_TABLE (F : Type) := {
  BootServices : option (EFI_BOOT_SERVICES F)
}.
Arguments BootServices {F}.

(** The calls made through the table, tagged with the place they are made
    from: the size probe is GetMemoryMap(&Size = 0, NULL, ...), the fetch is
    GetMemoryMap(&Size, Map, ...). *)
Inductive Call :=
| ProbeCall (reply : MemoryMapReply)
| AllocatePoolCall (PoolType : Z) (Size : UINTN) (Status : EFI_STATUS)
    (Buffer : pointer)
| FetchCall (Size : UINTN) (Buffer : pointer) (reply : MemoryMapReply)
| FreePoolCall (Buffer : pointer)
| ExitBootServicesCall (ImageHandle : EFI_HANDLE) (MapKey : UINTN)
    (Status : EFI_STATUS).

(** The logging boundary (boot/uefi/uefi_logging.h, not under src/): a
    sink of (level, format, arguments) that never affects control flow. *)
Inductive LogLevel := LOG_INFO | LOG_WARNING | LOG_ERROR | LOG_CRITICAL.

Record World (F : Type) := {
  firmware : F;
  calls : list Call;
  logged : list (LogLevel * string * list Z)
}.
Arguments firmware {F}.
Arguments calls {F}.
Arguments logged {F}.
Arguments Build_World {F}.

(** A world in which nothing has been called or logged yet. *)
Definition boot {F : Type} (f : F) : World F :=
  {| firmware := f; calls := []; logged := [] |}.

(** ** A small state monad over the world *)

Definition M (F A : Type) := World F -> A * World F.

Definition ret {F A} (a : A) : M F A := fun w => (a, w).

Definition bind {F A B} (m : M F A) (k : A -> M F B) : M F B :=
  fun w => let (a, w') := m w in k a w'.

Declare Scope fw_scope.
Delimit Scope fw_scope with fw.
Notation "x <- m ;; k" := (bind m (fun x => k))
  (at level 61, m at next level, right associativity) : fw_scope.
Notation "m ;;; k" := (bind m (fun _ => k))
  (at level 61, right associativity) : fw_scope.

(** How a loop body, or a loop, ends: by [return Status], or by reaching
    its end ([continue] included). *)
Inductive Flow :=
| Returned (Status : EFI_STATUS)
| Fallthrough.

Section Primitives.
Context {F : Type}.

Definition record_call (c : Call) (f : F) : M F unit :=
  fun w => (tt, {| firmware := f; calls := calls w ++ [c];
                   logged := logged w |}).

Definition UEFI_LOG (level : LogLevel) (fmt : string) (args : list Z)
  : M F unit :=
  fun w => (tt, {| firmware := firmware w; calls := calls w;
                   logged := logged w ++ [(level, fmt, args)] |}).

(** BS->GetMemoryMap(&Size, NULL, MapKey, DescriptorSize, DescriptorVersion)
    with Size = 0. *)
Definition call_probe (BS : EFI_BOOT_SERVICES F)
  (MapKey DescriptorSize : UINTN) (DescriptorVersion : UINT32)
  : M F MemoryMapReply :=
  fun w =>
    let (r, f) :=
      GetMemoryMap BS 0 NULL MapKey DescriptorSize DescriptorVersion
        (firmware w) in
    (r, snd (record_call (ProbeCall r) f w)).

(** BS->GetMemoryMap(&Size, Map, MapKey, DescriptorSize, DescriptorVersion) *)
Definition call_fetch (BS : EFI_BOOT_SERVICES F) (Size : UINTN)
  (Map : pointer) (MapKey DescriptorSize : UINTN)
  (DescriptorVersion : UINT32) : M F MemoryMapReply :=
  fun w =>
    let (r, f) :=
      GetMemoryMap BS Size Map MapKey DescriptorSize DescriptorVersion
        (firmware w) in
    (r, snd (record_call (FetchCall Size Map r) f w)).

(** BS->AllocatePool(PoolType, Size, (void ** )&Map) *)
Definition call_AllocatePool (BS : EFI_BOOT_SERVICES F) (PoolType : Z)
  (Size : UINTN) (Map : pointer) : M F (EFI_STATUS * pointer) :=
  fun w =>
    let (r, f) := AllocatePool BS PoolType Size Map (firmware w) in
    (r, snd (record_call (AllocatePoolCall PoolType Size (fst r) (snd r))
               f w)).

(** BS->FreePool(Map); the status is dropped, as in the source. *)
Definition call_FreePool (BS : EFI_BOOT_SERVICES F) (Map : pointer)
  : M F unit :=
  fun w =>
    let (_, f) := FreePool BS Map (firmware w) in
    record_call (FreePoolCall Map) f w.

(** BS->ExitBootServices(ImageHandle, MapKey) *)
Definition call_ExitBootServices (BS : EFI_BOOT_SERVICES F)
  (ImageHandle : EFI_HANDLE) (MapKey : UINTN) : M F EFI_STATUS :=
  fun w =>
    let (s, f) := ExitBootServices BS ImageHandle MapKey (firmware w) in
    (s, snd (record_call (ExitBootServicesCall ImageHandle MapKey s) f w)).

End Primitives.

(** [gST && gST->BootServices]: the table of boot services when the
    environment is ready, None when [!gST || !gST->BootServices]. *)
Definition boot_services {F : Type} (gST : option (EFI_SYSTEM_TABLE F))
  : option (EFI_BOOT_SERVICES F) :=
  match gST with
  | None => None
  | Some ST => BootServices ST
  end.

(** [!gST || !gST->BootServices]: a null system table, or a null
    BootServices pointer in it. *)
Definition not_ready {F : Type} (gST : option (EFI_SYSTEM_TABLE F)) : Prop :=
  gST = None \/ exists ST, gST = Some ST /\ BootServices ST = None.

(** ** get_memory_map.c *)

Module get_memory_map_c.

Definition MEMORY_MAP_MAX_RETRIES : Z := 8.
Definition MEMORY_MAP_EXTRA_DESCRIPTORS : Z := 16.

(** The five out-parameters as the caller passes them and finds them
    again: None is a null pointer, Some v a pointer to a location holding
    v.  The five locations are pairwise disjoint. *)
Record OutParams := {
  MemoryMap : option pointer;
  MemoryMapSize : option UINTN;
  MapKey : option UINTN;
  DescriptorSize : option UINTN;
  DescriptorVersion : option UINT32
}.

(** Five non-null pointers, to locations holding the given values. *)
Definition valid_pointers (mm : pointer) (mms mk ds : UINTN) (dv : UINT32)
  : OutParams :=
  {| MemoryMap := Some mm; MemoryMapSize := Some mms; MapKey := Some mk;
     DescriptorSize := Some ds; DescriptorVersion := Some dv |}.

(** [!MemoryMap || !MemoryMapSize || !MapKey || !DescriptorSize ||
    !DescriptorVersion] *)
Definition any_null (args : OutParams) : bool :=
  match MemoryMap args, MemoryMapSize args, MapKey args,
        DescriptorSize args, DescriptorVersion args with
  | Some _, Some _, Some _, Some _, Some _ => false
  | _, _, _, _, _ => true
  end.

(** The variables of the function once the null checks have passed: the
    locals Map and Size, and what the five out-locations hold. *)
Record Vars := {
  Map : pointer;
  Size : UINTN;
  at_MemoryMap : pointer;
  at_MemoryMapSize : UINTN;
  at_MapKey : UINTN;
  at_DescriptorSize : UINTN;
  at_DescriptorVersion : UINT32
}.

Definition set_Map (p : pointer) (v : Vars) : Vars :=
  {| Map := p; Size := Size v; at_MemoryMap := at_MemoryMap v;
     at_MemoryMapSize := at_MemoryMapSize v; at_MapKey := at_MapKey v;
     at_DescriptorSize := at_DescriptorSize v;
     at_DescriptorVersion := at_DescriptorVersion v |}.

Definition set_Size (s : UINTN) (v : Vars) : Vars :=
  {| Map := Map v; Size := s; at_MemoryMap := at_MemoryMap v;
     at_MemoryMapSize := at_MemoryMapSize v; at_MapKey := at_MapKey v;
     at_DescriptorSize := at_DescriptorSize v;
     at_DescriptorVersion := at_DescriptorVersion v |}.

(** After GetMemoryMap(&Size, _, MapKey, DescriptorSize, DescriptorVersion):
    Size and the three out-locations hold what the firmware left there. *)
Definition store_reply (r : MemoryMapReply) (v : Vars) : Vars :=
  {| Map := Map v; Size := reply_MemoryMapSize r;
     at_MemoryMap := at_MemoryMap v;
     at_MemoryMapSize := at_MemoryMapSize v;
     at_MapKey := reply_MapKey r;
     at_DescriptorSize := reply_DescriptorSize r;
     at_DescriptorVersion := reply_DescriptorVersion r |}.

(** [*MemoryMap = Map; *MemoryMapSize = Size;] *)
Definition hand_over (v : Vars) : Vars :=
  {| Map := Map v; Size := Size v; at_MemoryMap := Map v;
     at_MemoryMapSize := Size v; at_MapKey := at_MapKey v;
     at_DescriptorSize := at_DescriptorSize v;
     at_DescriptorVersion := at_DescriptorVersion v |}.

Definition out_params (v : Vars) : OutParams :=
  {| MemoryMap := Some (at_MemoryMap v);
     MemoryMapSize := Some (at_MemoryMapSize v);
     MapKey := Some (at_MapKey v);
     DescriptorSize := Some (at_DescriptorSize v);
     DescriptorVersion := Some (at_DescriptorVersion v) |}.

Section Code.
Context `{uefi_headers} {F : Type}.
Local Open Scope string_scope.
Local Open Scope Z_scope.
Local Open Scope fw_scope.

(** The body of the for loop, lines 66-116. *)
Definition attempt (BS : EFI_BOOT_SERVICES F) (Retry : UINTN) (v : Vars)
  : M F (Flow * Vars) :=
  (* Probe required buffer size *)
  let v := set_Size 0 v in
  r <- call_probe BS (at_MapKey v) (at_DescriptorSize v)
         (at_DescriptorVersion v) ;;
  let v := store_reply r v in
  let Status := reply_Status r in
  if negb (Status =? EFI_BUFFER_TOO_SMALL) then
    UEFI_LOG LOG_ERROR "GetMemoryMap(size probe) failed: %r" [Status] ;;;
    ret (Returned Status, v)
  else
    (* Allocate buffer with extra descriptors to handle firmware races *)
    let v :=
      set_Size
        (to_UINTN
           (Size v
            + to_UINTN (at_DescriptorSize v * MEMORY_MAP_EXTRA_DESCRIPTORS)))
        v in
    a <- call_AllocatePool BS EfiLoaderData (Size v) (Map v) ;;
    let v := set_Map (snd a) v in
    let Status := fst a in
    if EFI_ERROR Status then
      UEFI_LOG LOG_ERROR "AllocatePool failed: %r" [Status] ;;;
      ret (Returned Status, v)
    else
      (* Retrieve actual memory map *)
      r <- call_fetch BS (Size v) (Map v) (at_MapKey v)
             (at_DescriptorSize v) (at_DescriptorVersion v) ;;
      let v := store_reply r v in
      let Status := reply_Status r in
      if EFI_ERROR Status then
        UEFI_LOG LOG_WARNING "GetMemoryMap retry %u failed: %r"
          [to_UINTN (Retry + 1); Status] ;;;
        call_FreePool BS (Map v) ;;;
        let v := set_Map NULL v in
        ret (Fallthrough, v)
      else
        (* Defensive validation: check alignment and descriptor size *)
        if negb (to_UINTN (Map v) mod sizeof_UINT64 =? 0) then
          UEFI_LOG LOG_CRITICAL "MemoryMap not 8-byte aligned" [] ;;;
          call_FreePool BS (Map v) ;;;
          ret (Returned EFI_DEVICE_ERROR, v)
        else
          let v := hand_over v in
          ret (Returned EFI_SUCCESS, v).

(** [for (Retry = 0; Retry < MEMORY_MAP_MAX_RETRIES; Retry++)], lines
    65-117, by recursion on the number of passes that are left:
    [left = MEMORY_MAP_MAX_RETRIES - Retry], so [Retry <
    MEMORY_MAP_MAX_RETRIES] holds exactly when [left] is a successor. *)
Fixpoint attempts (BS : EFI_BOOT_SERVICES F) (left : nat) (Retry : UINTN)
  (v : Vars) : M F (Flow * Vars) :=
  match left with
  | O => ret (Fallthrough, v)
  | S left' =>
      b <- attempt BS Retry v ;;
      match fst b with
      | Returned Status => ret (Returned Status, snd b)
      | Fallthrough => attempts BS left' (to_UINTN (Retry + 1)) (snd b)
      end
  end.

Definition get_memory_map (gST : option (EFI_SYSTEM_TABLE F))
  (args : OutParams) : M F (EFI_STATUS * OutParams) :=
  match MemoryMap args, MemoryMapSize args, MapKey args,
        DescriptorSize args, DescriptorVersion args with
  | Some mm, Some mms, Some mk, Some ds, Some dv =>
      match boot_services gST with
      | None =>
          UEFI_LOG LOG_CRITICAL "get_memory_map: BootServices unavailable"
            [] ;;;
          ret (EFI_NOT_READY, args)
      | Some BS =>
          let v := {| Map := NULL; Size := 0; at_MemoryMap := mm;
                      at_MemoryMapSize := mms; at_MapKey := mk;
                      at_DescriptorSize := ds;
                      at_DescriptorVersion := dv |} in
          l <- attempts BS (Z.to_nat (MEMORY_MAP_MAX_RETRIES - 0)) 0 v ;;
          match fst l with
          | Returned Status => ret (Status, out_params (snd l))
          | Fallthrough =>
              UEFI_LOG LOG_CRITICAL "get_memory_map: failed after %u retries"
                [MEMORY_MAP_MAX_RETRIES] ;;;
              ret (EFI_DEVICE_ERROR, out_params (snd l))
          end
      end
  | _, _, _, _, _ =>
      UEFI_LOG LOG_ERROR "get_memory_map: invalid parameters" [] ;;;
      ret (EFI_INVALID_PARAMETER, args)
  end.

End Code.
End get_memory_map_c.

(** ** exit_boot_services.c *)

Module exit_boot_services_c.

Definition EXIT_BOOT_SERVICES_MAX_RETRIES : Z := 8.

(** The locals of exit_boot_services. *)
Record Vars := {
  MemoryMap : pointer;
  MemoryMapSize : UINTN;
  MapKey : UINTN;
  DescriptorSize : UINTN;
  DescriptorVersion : UINT32
}.

Definition set_MemoryMap (p : pointer) (v : Vars) : Vars :=
  {| MemoryMap := p; MemoryMapSize := MemoryMapSize v; MapKey := MapKey v;
     DescriptorSize := DescriptorSize v;
     DescriptorVersion := DescriptorVersion v |}.

Definition set_MemoryMapSize (s : UINTN) (v : Vars) : Vars :=
  {| MemoryMap := MemoryMap v; MemoryMapSize := s; MapKey := MapKey v;
     DescriptorSize := DescriptorSize v;
     DescriptorVersion := DescriptorVersion v |}.

(** After GetMemoryMap(&MemoryMapSize, _, &MapKey, &DescriptorSize,
    &DescriptorVersion). *)
Definition store_reply (r : MemoryMapReply) (v : Vars) : Vars :=
  {| MemoryMap := MemoryMap v; MemoryMapSize := reply_MemoryMapSize r;
     MapKey := reply_MapKey r; DescriptorSize := reply_DescriptorSize r;
     DescriptorVersion := reply_DescriptorVersion r |}.

Section Code.
Context `{uefi_headers} {F : Type}.
Local Open Scope string_scope.
Local Open Scope Z_scope.
Local Open Scope fw_scope.

(** The body of the for loop, lines 72-146. *)
Definition attempt (BS : EFI_BOOT_SERVICES F) (ImageHandle : EFI_HANDLE)
  (Retry : UINTN) (v : Vars) : M F (Flow * Vars) :=
  (* First call to determine required buffer size *)
  let v := set_MemoryMapSize 0 v in
  r <- call_probe BS (MapKey v) (DescriptorSize v) (DescriptorVersion v) ;;
  let v := store_reply r v in
  let Status := reply_Status r in
  if negb (Status =? EFI_BUFFER_TOO_SMALL) then
    UEFI_LOG LOG_ERROR "GetMemoryMap(size probe) failed: %r" [Status] ;;;
    ret (Returned Status, v)
  else
    (* Allocate memory map buffer; add extra space to tolerate firmware
       changes *)
    let v :=
      set_MemoryMapSize
        (to_UINTN (MemoryMapSize v + to_UINTN (DescriptorSize v * 8))) v in
    a <- call_AllocatePool BS EfiLoaderData (MemoryMapSize v)
           (MemoryMap v) ;;
    let v := set_MemoryMap (snd a) v in
    let Status := fst a in
    if EFI_ERROR Status then
      UEFI_LOG LOG_ERROR "AllocatePool for memory map failed: %r"
        [Status] ;;;
      ret (Returned Status, v)
    else
      (* Retrieve actual memory map *)
      r <- call_fetch BS (MemoryMapSize v) (MemoryMap v) (MapKey v)
             (DescriptorSize v) (DescriptorVersion v) ;;
      let v := store_reply r v in
      let Status := reply_Status r in
      if EFI_ERROR Status then
        UEFI_LOG LOG_ERROR "GetMemoryMap failed: %r" [Status] ;;;
        call_FreePool BS (MemoryMap v) ;;;
        let v := set_MemoryMap NULL v in
        ret (Fallthrough, v)
      else
        (* Attempt to exit boot services *)
        Status <- call_ExitBootServices BS ImageHandle (MapKey v) ;;
        if Status =? EFI_SUCCESS then
          UEFI_LOG LOG_INFO "ExitBootServices succeeded" [] ;;;
          ret (Returned EFI_SUCCESS, v)
        else
          (* Firmware changed memory map between calls *)
          UEFI_LOG LOG_WARNING "ExitBootServices retry %u failed: %r"
            [to_UINTN (Retry + 1); Status] ;;;
          call_FreePool BS (MemoryMap v) ;;;
          let v := set_MemoryMap NULL v in
          ret (Fallthrough, v).

(** [for (Retry = 0; Retry < EXIT_BOOT_SERVICES_MAX_RETRIES; Retry++)],
    lines 71-147, by recursion on the number of passes that are left. *)
Fixpoint attempts (BS : EFI_BOOT_SERVICES F) (ImageHandle : EFI_HANDLE)
  (left : nat) (Retry : UINTN) (v : Vars) : M F (Flow * Vars) :=
  match left with
  | O => ret (Fallthrough, v)
  | S left' =>
      b <- attempt BS ImageHandle Retry v ;;
      match fst b with
      | Returned Status => ret (Returned Status, snd b)
      | Fallthrough =>
          attempts BS ImageHandle left' (to_UINTN (Retry + 1)) (snd b)
      end
  end.

Definition exit_boot_services (gST : option (EFI_SYSTEM_TABLE F))
  (ImageHandle : EFI_HANDLE) : M F EFI_STATUS :=
  let v := {| MemoryMap := NULL; MemoryMapSize := 0; MapKey := 0;
              DescriptorSize := 0; DescriptorVersion := 0 |} in
  if ImageHandle =? NULL then
    UEFI_LOG LOG_ERROR "ExitBootServices: ImageHandle is NULL" [] ;;;
    ret EFI_INVALID_PARAMETER
  else
    match boot_services gST with
    | None =>
        UEFI_LOG LOG_CRITICAL "ExitBootServices: BootServices unavailable"
          [] ;;;
        ret EFI_NOT_READY
    | Some BS =>
        l <- attempts BS ImageHandle
               (Z.to_nat (EXIT_BOOT_SERVICES_MAX_RETRIES - 0)) 0 v ;;
        match fst l with
        | Returned Status => ret Status
        | Fallthrough =>
            UEFI_LOG LOG_CRITICAL "ExitBootServices failed after %u retries"
              [EXIT_BOOT_SERVICES_MAX_RETRIES] ;;;
            ret EFI_ABORTED
        end
    end.

End Code.
End exit_boot_services_c.

(** ** Reading a trace of calls *)

Definition is_probe (c : Call) : bool :=
  match c with ProbeCall _ => true | _ => false end.

Definition is_allocation (c : Call) : bool :=
  match c with AllocatePoolCall _ _ _ _ => true | _ => false end.

Definition is_release (c : Call) : bool :=
  match c with FreePoolCall _ => true | _ => false end.

Definition is_handshake (c : Call) : bool :=
  match c with ExitBootServicesCall _ _ _ => true | _ => false end.

Definition count (p : Call -> bool) (t : list Call) : nat :=
  List.length (filter p t).

(** The last call of a trace, if there is one. *)
Fixpoint final_call (t : list Call) : option Call :=
  match t with
  | [] => None
  | c :: t' =>
      match final_call t' with
      | Some c' => Some c'
      | None => Some c
      end
  end.

(** Taking one buffer at address b out of the live ones. *)
Fixpoint release (b : pointer) (live : list pointer) : list pointer :=
  match live with
  | [] => []
  | p :: live' => if p =? b then live' else p :: release b live'
  end.

Section Traces.
Context `{uefi_headers}.

(** A fetch the code treats as failed: EFI_ERROR(Status). *)
Definition is_failed_fetch (c : Call) : bool :=
  match c with
  | FetchCall _ _ r => EFI_ERROR (reply_Status r)
  | _ => false
  end.

(** The buffers allocated and not released, oldest first, after the calls
    of t, starting from the buffers [live]. *)
Fixpoint outstanding (live : list pointer) (t : list Call) : list pointer :=
  match t with
  | [] => live
  | AllocatePoolCall _ _ Status b :: t' =>
      if EFI_ERROR Status then outstanding live t'
      else outstanding (live ++ [b]) t'
  | FreePoolCall b :: t' => outstanding (release b live) t'
  | _ :: t' => outstanding live t'
  end.

(** The size asked of AllocatePool after a probe answered r, with room
    for [extra] more descriptors: Size += DescriptorSize * extra, in
    UINTN. *)
Definition slack_size (extra : Z) (r : MemoryMapReply) : UINTN :=
  to_UINTN (reply_MemoryMapSize r
            + to_UINTN (reply_DescriptorSize r * extra)).

(** [((UINTN)Map % sizeof(UINT64)) != 0] is false. *)
Definition aligned (Map : pointer) : bool :=
  to_UINTN Map mod sizeof_UINT64 =? 0.

(** How the probe / allocate / fetch steps of one pass end. *)
Inductive Acquired :=
| Fatal (Status : EFI_STATUS)
| TryAgain
| Fetched (Buffer : pointer) (reply : MemoryMapReply).

(** The calls of the probe / allocate / fetch steps of one pass, common to
    both functions up to the number of extra descriptors. *)
Inductive acquisition (extra : Z) : list Call -> Acquired -> Prop :=
| probe_anomaly r :
    reply_Status r <> EFI_BUFFER_TOO_SMALL ->
    acquisition extra [ProbeCall r] (Fatal (reply_Status r))
| pool_failure r s b :
    reply_Status r = EFI_BUFFER_TOO_SMALL ->
    EFI_ERROR s = true ->
    acquisition extra
      [ProbeCall r; AllocatePoolCall EfiLoaderData (slack_size extra r) s b]
      (Fatal s)
| fetch_failure r s b r' :
    reply_Status r = EFI_BUFFER_TOO_SMALL ->
    EFI_ERROR s = false ->
    EFI_ERROR (reply_Status r') = true ->
    acquisition extra
      [ProbeCall r; AllocatePoolCall EfiLoaderData (slack_size extra r) s b;
       FetchCall (slack_size extra r) b r'; FreePoolCall b]
      TryAgain
| fetch_success r s b r' :
    reply_Status r = EFI_BUFFER_TOO_SMALL ->
    EFI_ERROR s = false ->
    EFI_ERROR (reply_Status r') = false ->
    acquisition extra
      [ProbeCall r; AllocatePoolCall EfiLoaderData (slack_size extra r) s b;
       FetchCall (slack_size extra r) b r']
      (Fetched b r').

(** One pass of get_memory_map's loop: its calls, how it ends, and the
    (buffer, size) it stores through MemoryMap and MemoryMapSize, if it
    stores anything. *)
Inductive map_pass : list Call -> Flow -> option (pointer * UINTN) -> Prop :=
| map_fatal t s :
    acquisition get_memory_map_c.MEMORY_MAP_EXTRA_DESCRIPTORS t (Fatal s) ->
    map_pass t (Returned s) None
| map_retry t :
    acquisition get_memory_map_c.MEMORY_MAP_EXTRA_DESCRIPTORS t TryAgain ->
    map_pass t Fallthrough None
| map_misaligned t b r :
    acquisition get_memory_map_c.MEMORY_MAP_EXTRA_DESCRIPTORS t
      (Fetched b r) ->
    aligned b = false ->
    map_pass (t ++ [FreePoolCall b]) (Returned EFI_DEVICE_ERROR) None
| map_handed_over t b r :
    acquisition get_memory_map_c.MEMORY_MAP_EXTRA_DESCRIPTORS t
      (Fetched b r) ->
    aligned b = true ->
    map_pass t (Returned EFI_SUCCESS) (Some (b, reply_MemoryMapSize r)).

(** The passes of get_memory_map's loop when [left] passes are left. *)
Inductive map_run : nat -> list Call -> EFI_STATUS ->
                    option (pointer * UINTN) -> Prop :=
| map_exhausted : map_run O [] EFI_DEVICE_ERROR None
| map_returned left t s h :
    map_pass t (Returned s) h ->
    map_run (S left) t s h
| map_again left t t' s h :
    map_pass t Fallthrough None ->
    map_run left t' s h ->
    map_run (S left) (t ++ t') s h.

(** One pass of exit_boot_services's loop. *)
Inductive exit_pass (ImageHandle : EFI_HANDLE) : list Call -> Flow -> Prop :=
| exit_fatal t s :
    acquisition 8 t (Fatal s) ->
    exit_pass ImageHandle t (Returned s)
| exit_retry t :
    acquisition 8 t TryAgain ->
    exit_pass ImageHandle t Fallthrough
| exit_done t b r :
    acquisition 8 t (Fetched b r) ->
    exit_pass ImageHandle
      (t ++ [ExitBootServicesCall ImageHandle (reply_MapKey r) EFI_SUCCESS])
      (Returned EFI_SUCCESS)
| exit_stale t b r s :
    acquisition 8 t (Fetched b r) ->
    s <> EFI_SUCCESS ->
    exit_pass ImageHandle
      (t ++ [ExitBootServicesCall ImageHandle (reply_MapKey r) s;
             FreePoolCall b])
      Fallthrough.

(** The passes of exit_boot_services's loop when [left] passes are left. *)
Inductive exit_run (ImageHandle : EFI_HANDLE) : nat -> list Call ->
                                                 EFI_STATUS -> Prop :=
| exit_exhausted : exit_run ImageHandle O [] EFI_ABORTED
| exit_returned left t s :
    exit_pass ImageHandle t (Returned s) ->
    exit_run ImageHandle (S left) t s
| exit_again left t t' s :
    exit_pass ImageHandle t Fallthrough ->
    exit_run ImageHandle left t' s ->
    exit_run ImageHandle (S left) (t ++ t') s.

(** What a pass or a run of get_memory_map leaves at MemoryMap and
    MemoryMapSize, given what was there and what was handed over. *)
Definition stored (h : option (pointer * UINTN)) (old : pointer * UINTN)
  : pointer * UINTN :=
  match h with
  | Some new => new
  | None => old
  end.

(** The status get_memory_map returns when its loop ends as [fl]. *)
Definition map_status (fl : Flow) : EFI_STATUS :=
  match fl with
  | Returned s => s
  | Fallthrough => EFI_DEVICE_ERROR
  end.

(** The status exit_boot_services returns when its loop ends as [fl]. *)
Definition exit_status (fl : Flow) : EFI_STATUS :=
  match fl with
  | Returned s => s
  | Fallthrough => EFI_ABORTED
  end.

(** [each_call P before t]: every call of t satisfies P, which is shown the
    calls made before it, latest first, [before] being the calls made
    before t. *)
Fixpoint each_call (P : list Call -> Call -> Prop) (before t : list Call)
  : Prop :=
  match t with
  | [] => True
  | c :: t' => P before c /\ each_call P (c :: before) t'
  end.

(** An allocation comes right after a probe that answered "buffer too
    small", and asks for that probe's size plus [extra] descriptors. *)
Definition sized_by_probe (extra : Z) (before : list Call) (c : Call)
  : Prop :=
  match c with
  | AllocatePoolCall ty sz _ _ =>
      match before with
      | ProbeCall r :: _ =>
          reply_Status r = EFI_BUFFER_TOO_SMALL /\
          ty = EfiLoaderData /\
          sz = slack_size extra r
      | _ => False
      end
  | _ => True
  end.

(** A release comes right after a fetch into the released buffer, itself
    right after the allocation of that buffer. *)
Definition releases_fetched (before : list Call) (c : Call) : Prop :=
  match c with
  | FreePoolCall b =>
      match before with
      | FetchCall sz b' _ :: AllocatePoolCall _ sz' _ b'' :: _ =>
          b' = b /\ b'' = b /\ sz' = sz
      | _ => False
      end
  | _ => True
  end.

(** A handshake comes right after the probe, the allocation and the
    successful fetch of its own pass, and is given that fetch's key. *)
Definition fresh_key (ImageHandle : EFI_HANDLE) (before : list Call)
  (c : Call) : Prop :=
  match c with
  | ExitBootServicesCall h k _ =>
      match before with
      | FetchCall sz b r :: AllocatePoolCall _ sz' s b' :: ProbeCall r0 :: _ =>
          h = ImageHandle /\
          k = reply_MapKey r /\
          EFI_ERROR (reply_Status r) = false /\
          sz' = sz /\ b' = b /\
          EFI_ERROR s = false /\
          reply_Status r0 = EFI_BUFFER_TOO_SMALL
      | _ => False
      end
  | _ => True
  end.

(** The five calls of a pass of exit_boot_services whose handshake was
    refused. *)
Definition stale_pass (ImageHandle : EFI_HANDLE) (t : list Call) : Prop :=
  exists r sz s b r' k s',
    t = [ProbeCall r; AllocatePoolCall EfiLoaderData sz s b;
         FetchCall sz b r'; ExitBootServicesCall ImageHandle k s';
         FreePoolCall b] /\
    k = reply_MapKey r' /\
    s' <> EFI_SUCCESS.

End Traces.

(** ** A firmware to run the code against

    The status codes of the UEFI specification (appendix D) on a 64-bit
    platform: the high bit marks an error, EFI_ERROR tests it. *)
Definition EFIERR (n : Z) : EFI_STATUS := Z.lor (Z.shiftl 1 63) n.

Definition uefi64 : uefi_headers :=
  {| EFI_SUCCESS := 0;
     EFI_INVALID_PARAMETER := EFIERR 2;
     EFI_BUFFER_TOO_SMALL := EFIERR 5;
     EFI_NOT_READY := EFIERR 6;
     EFI_DEVICE_ERROR := EFIERR 7;
     EFI_ABORTED := EFIERR 21;
     EFI_ERROR := fun s => Z.testbit s 63;
     EfiLoaderData := 2 |}.

(** What a scripted firmware is told to do. *)
Record Script := {
  probe_status : EFI_STATUS;     (* status of every size probe *)
  probe_size : UINTN;            (* size every probe reports *)
  descriptor_size : UINTN;       (* descriptor size every call reports *)
  pool_base : pointer;           (* address of the first buffer *)
  fetch_failures : nat;          (* fetches that fail before one succeeds *)
  fetched_size : UINTN;          (* size a successful fetch reports *)
  first_key : UINTN;             (* map key of the first successful fetch *)
  stale_handshakes : nat         (* handshakes refused before one succeeds *)
}.

(** What the scripted firmware remembers: how many fetches, allocations
    and handshakes it has seen. *)
Record Seen := {
  fetches : nat;
  allocations : nat;
  handshakes : nat
}.

Definition nothing_seen : Seen :=
  {| fetches := 0; allocations := 0; handshakes := 0 |}.

Definition scripted_GetMemoryMap (s : Script) (Size : UINTN) (Map : pointer)
  (MapKey DescriptorSize : UINTN) (DescriptorVersion : UINT32) (f : Seen)
  : MemoryMapReply * Seen :=
  if Map =? NULL then
    ({| reply_Status := probe_status s;
        reply_MemoryMapSize := probe_size s;
        reply_MapKey := MapKey;
        reply_DescriptorSize := descriptor_size s;
        reply_DescriptorVersion := 1 |}, f)
  else
    let f' := {| fetches := S (fetches f); allocations := allocations f;
                 handshakes := handshakes f |} in
    if (fetches f <? fetch_failures s)%nat then
      ({| reply_Status := @EFI_BUFFER_TOO_SMALL uefi64;
          reply_MemoryMapSize := Size + descriptor_size s * 32;
          reply_MapKey := MapKey;
          reply_DescriptorSize := descriptor_size s;
          reply_DescriptorVersion := 1 |}, f')
    else
      ({| reply_Status := @EFI_SUCCESS uefi64;
          reply_MemoryMapSize := fetched_size s;
          reply_MapKey := first_key s + Z.of_nat (fetches f);
          reply_DescriptorSize := descriptor_size s;
          reply_DescriptorVersion := 1 |}, f').

(** Buffers are handed out 4096 bytes apart, starting at pool_base. *)
Definition scripted_AllocatePool (s : Script) (PoolType : Z) (Size : UINTN)
  (Map : pointer) (f : Seen) : (EFI_STATUS * pointer) * Seen :=
  ((@EFI_SUCCESS uefi64, pool_base s + 4096 * Z.of_nat (allocations f)),
   {| fetches := fetches f; allocations := S (allocations f);
      handshakes := handshakes f |}).

Definition scripted_FreePool (Map : pointer) (f : Seen)
  : EFI_STATUS * Seen :=
  (@EFI_SUCCESS uefi64, f).

(** A stale map key is refused with EFI_INVALID_PARAMETER. *)
Definition scripted_ExitBootServices (s : Script) (ImageHandle : EFI_HANDLE)
  (MapKey : UINTN) (f : Seen) : EFI_STATUS * Seen :=
  (if (handshakes f <? stale_handshakes s)%nat
   then @EFI_INVALID_PARAMETER uefi64 else @EFI_SUCCESS uefi64,
   {| fetches := fetches f; allocations := allocations f;
      handshakes := S (handshakes f) |}).

Definition scripted (s : Script) : EFI_BOOT_SERVICES Seen :=
  {| GetMemoryMap := scripted_GetMemoryMap s;
     AllocatePool := scripted_AllocatePool s;
     FreePool := scripted_FreePool;
     ExitBootServices := scripted_ExitBootServices s |}.

Definition ready (s : Script) : option (EFI_SYSTEM_TABLE Seen) :=
  Some {| BootServices := Some (scripted s) |}.

(** The firmware of the specification's example trace: the probe reports
    4096 bytes and 48-byte descriptors, the first fetch succeeds with 4200
    bytes and key 0x1122, the first handshake succeeds. *)
Definition example_script : Script :=
  {| probe_status := @EFI_BUFFER_TOO_SMALL uefi64;
     probe_size := 4096;
     descriptor_size := 48;
     pool_base := 0x100000;
     fetch_failures := 0;
     fetched_size := 4200;
     first_key := 0x1122;
     stale_handshakes := 0 |}.

Definition with_probe_status (st : EFI_STATUS) (s : Script) : Script :=
  {| probe_status := st; probe_size := probe_size s;
     descriptor_size := descriptor_size s; pool_base := pool_base s;
     fetch_failures := fetch_failures s; fetched_size := fetched_size s;
     first_key := first_key s; stale_handshakes := stale_handshakes s |}.

Definition with_pool_base (p : pointer) (s : Script) : Script :=
  {| probe_status := probe_status s; probe_size := probe_size s;
     descriptor_size := descriptor_size s; pool_base := p;
     fetch_failures := fetch_failures s; fetched_size := fetched_size s;
     first_key := first_key s; stale_handshakes := stale_handshakes s |}.

Definition with_fetch_failures (n : nat) (s : Script) : Script :=
  {| probe_status := probe_status s; probe_size := probe_size s;
     descriptor_size := descriptor_size s; pool_base := pool_base s;
     fetch_failures := n; fetched_size := fetched_size s;
     first_key := first_key s; stale_handshakes := stale_handshakes s |}.

Definition with_stale_handshakes (n : nat) (s : Script) : Script :=
  {| probe_status := probe_status s; probe_size := probe_size s;
     descriptor_size := descriptor_size s; pool_base := pool_base s;
     fetch_failures := fetch_failures s; fetched_size := fetched_size s;
     first_key := first_key s; stale_handshakes := n |}.

(** Five valid out-pointers, to locations that hold 0xAA..0xEE. *)
Definition caller_locations : get_memory_map_c.OutParams :=
  {| get_memory_map_c.MemoryMap := Some 0xAA;
     get_memory_map_c.MemoryMapSize := Some 0xBB;
     get_memory_map_c.MapKey := Some 0xCC;
     get_memory_map_c.DescriptorSize := Some 0xDD;
     get_memory_map_c.DescriptorVersion := Some 0xEE |}.

Definition an_image : EFI_HANDLE := 0x7000.

(** What the example firmware answers to a probe and to its first fetch. *)
Definition example_probe (MapKey : UINTN) : MemoryMapReply :=
  {| reply_Status := @EFI_BUFFER_TOO_SMALL uefi64;
     reply_MemoryMapSize := 4096;
     reply_MapKey := MapKey;
     reply_DescriptorSize := 48;
     reply_DescriptorVersion := 1 |}.

Definition example_fetch : MemoryMapReply :=
  {| reply_Status := @EFI_SUCCESS uefi64;
     reply_MemoryMapSize := 4200;
     reply_MapKey := 0x1122;
     reply_DescriptorSize := 48;
     reply_DescriptorVersion := 1 |}.

(** ** More ways to read a trace and a log *)

Definition is_fetch (c : Call) : bool :=
  match c with FetchCall _ _ _ => true | _ => false end.

(** What the last GetMemoryMap call of a trace, probe or fetch, answered. *)
Fixpoint last_reply (t : list Call) : option MemoryMapReply :=
  match t with
  | [] => None
  | c :: t' =>
      match last_reply t' with
      | Some r => Some r
      | None =>
          match c with
          | ProbeCall r => Some r
          | FetchCall _ _ r => Some r
          | _ => None
          end
      end
  end.


(** The last message of the log is an error or a critical message. *)
Definition ends_with_failure (l : list (LogLevel * string * list Z))
  : Prop :=
  exists l' lvl fmt a,
    l = l' ++ [(lvl, fmt, a)] /\ (lvl = LOG_ERROR \/ lvl = LOG_CRITICAL).

Section MoreTraces.
Context `{uefi_headers}.

(** A fetch comes right after a successful allocation, into the buffer
    and with the size of that allocation. *)
Definition fetch_follows_allocation (before : list Call) (c : Call)
  : Prop :=
  match c with
  | FetchCall sz b _ =>
      match before with
      | AllocatePoolCall ty sz' st b' :: _ =>
          sz' = sz /\ b' = b /\ EFI_ERROR st = false /\ ty = EfiLoaderData
      | _ => False
      end
  | _ => True
  end.

End MoreTraces.

(** A firmware that answers like [scripted s] but has no pool memory left:
    AllocatePool fails with EFI_OUT_OF_RESOURCES and leaves the pointer as
    it was. *)
Definition out_of_memory (s : Script) : EFI_BOOT_SERVICES Seen :=
  {| GetMemoryMap := scripted_GetMemoryMap s;
     AllocatePool := fun _ _ Map f => ((EFIERR 9, Map), f);
     FreePool := scripted_FreePool;
     ExitBootServices := scripted_ExitBootServices s |}.

Definition with_probe_size (n : UINTN) (s : Script) : Script :=
  {| probe_status := probe_status s; probe_size := n;
     descriptor_size := descriptor_size s; pool_base := pool_base s;
     fetch_failures := fetch_failures s; fetched_size := fetched_size s;
     first_key := first_key s; stale_handshakes := stale_handshakes s |}.

(** A firmware that answers like [scripted s] until its pool is used up:
    the first [n] allocations succeed, the later ones fail with
    EFI_OUT_OF_RESOURCES and leave the pointer as it was. *)
Definition memory_runs_out (n : nat) (s : Script)
  : EFI_BOOT_SERVICES Seen :=
  {| GetMemoryMap := scripted_GetMemoryMap s;
     AllocatePool :=
       fun PoolType Size Map f =>
         if (allocations f <? n)%nat
         then scripted_AllocatePool s PoolType Size Map f
         else ((EFIERR 9, Map), f);
     FreePool := scripted_FreePool;
     ExitBootServices := scripted_ExitBootServices s |}.

(** * Proofs *)

(** ** What the code does is what the trace grammar says *)

Section Soundness.
Context `{uefi_headers} {F : Type}.

(** One call through the table: names what the firmware answered. *)
Ltac step_GetMemoryMap r :=
  match goal with
  | |- context [GetMemoryMap ?b ?s ?m ?k ?d ?v ?f] =>
      destruct (GetMemoryMap b s m k d v f) as [r ?]
  end; cbn.

Ltac step_AllocatePool st p :=
  match goal with
  | |- context [AllocatePool ?b ?t ?s ?m ?f] =>
      destruct (AllocatePool b t s m f) as [[st p] ?]
  end; cbn.

Ltac step_FreePool :=
  match goal with
  | |- context [FreePool ?b ?m ?f] =>
      destruct (FreePool b m f) as [? ?]
  end; cbn.

Ltac step_ExitBootServices st :=
  match goal with
  | |- context [ExitBootServices ?b ?h ?k ?f] =>
      destruct (ExitBootServices b h k f) as [st ?]
  end; cbn.

Lemma map_attempt_sound (BS : EFI_BOOT_SERVICES F) (Retry : UINTN)
  (v : get_memory_map_c.Vars) (w : World F) :
  let res := get_memory_map_c.attempt BS Retry v w in
  exists t h,
    calls (snd res) = calls w ++ t /\
    map_pass t (fst (fst res)) h /\
    (get_memory_map_c.at_MemoryMap (snd (fst res)),
     get_memory_map_c.at_MemoryMapSize (snd (fst res)))
    = stored h (get_memory_map_c.at_MemoryMap v,
                get_memory_map_c.at_MemoryMapSize v).
Proof.
  unfold get_memory_map_c.attempt, bind, call_probe, call_AllocatePool,
    call_fetch, call_FreePool, record_call, UEFI_LOG, ret.
  cbn. step_GetMemoryMap r.
  destruct (Z.eqb_spec (reply_Status r) EFI_BUFFER_TOO_SMALL) as [Hp | Hp];
    cbn.
  2: { exists [ProbeCall r], None. repeat split.
       apply map_fatal. now apply probe_anomaly. }
  step_AllocatePool st p.
  destruct (EFI_ERROR st) eqn:Ha; cbn.
  { eexists _, None. rewrite <- app_assoc. cbn. repeat split.
    apply map_fatal. now apply pool_failure. }
  step_GetMemoryMap r'.
  destruct (EFI_ERROR (reply_Status r')) eqn:Hf; cbn.
  { step_FreePool. eexists _, None. rewrite <- !app_assoc. cbn.
    repeat split. apply map_retry. now apply fetch_failure. }
  fold (aligned p).
  destruct (aligned p) eqn:Hal; cbn.
  - eexists _, (Some (p, reply_MemoryMapSize r')). rewrite <- !app_assoc.
    cbn. repeat split. eapply map_handed_over; [|exact Hal].
    now apply fetch_success.
  - step_FreePool. eexists _, None. rewrite <- !app_assoc. cbn.
    repeat split.
    apply (map_misaligned
             [ProbeCall r;
              AllocatePoolCall EfiLoaderData
                (slack_size get_memory_map_c.MEMORY_MAP_EXTRA_DESCRIPTORS r)
                st p;
              FetchCall
                (slack_size get_memory_map_c.MEMORY_MAP_EXTRA_DESCRIPTORS r)
                p r'] p r'); [|exact Hal].
    now apply fetch_success.
Qed.

Lemma map_attempts_sound (BS : EFI_BOOT_SERVICES F) (left : nat) :
  forall (Retry : UINTN) (v : get_memory_map_c.Vars) (w : World F),
  let res := get_memory_map_c.attempts BS left Retry v w in
  exists t h,
    calls (snd res) = calls w ++ t /\
    map_run left t (map_status (fst (fst res))) h /\
    (get_memory_map_c.at_MemoryMap (snd (fst res)),
     get_memory_map_c.at_MemoryMapSize (snd (fst res)))
    = stored h (get_memory_map_c.at_MemoryMap v,
                get_memory_map_c.at_MemoryMapSize v).
Proof.
  induction left as [|left IH]; intros Retry v w; cbn.
  - exists [], None. rewrite app_nil_r. repeat split. constructor.
  - unfold bind.
    destruct (map_attempt_sound BS Retry v w) as (t & h & Hc & Hp & Hs).
    destruct (get_memory_map_c.attempt BS Retry v w) as [[fl v1] w1].
    cbn in *. destruct fl as [s|]; cbn.
    + exists t, h. repeat split; trivial. now apply map_returned.
    + assert (h = None) by (inversion Hp; reflexivity). subst h.
      destruct (IH (to_UINTN (Retry + 1)) v1 w1) as (t' & h' & Hc' & Hr & Hs').
      exists (t ++ t'), h'. rewrite Hc', Hc, app_assoc. repeat split.
      * now apply map_again.
      * rewrite Hs'. cbn in Hs. now rewrite Hs.
Qed.

(** get_memory_map with five valid pointers and a ready environment: its
    calls and its status form a run of 8 passes, and MemoryMap and
    MemoryMapSize hold what the run handed over, or what they held. *)
Lemma get_memory_map_sound (gST : option (EFI_SYSTEM_TABLE F))
  (BS : EFI_BOOT_SERVICES F) (mm : pointer) (mms mk ds : UINTN)
  (dv : UINT32) (f : F) :
  boot_services gST = Some BS ->
  let args := get_memory_map_c.valid_pointers mm mms mk ds dv in
  let res := get_memory_map_c.get_memory_map gST args (boot f) in
  exists h,
    map_run 8 (calls (snd res)) (fst (fst res)) h /\
    get_memory_map_c.MemoryMap (snd (fst res)) = Some (fst (stored h (mm, mms)))
    /\
    get_memory_map_c.MemoryMapSize (snd (fst res))
    = Some (snd (stored h (mm, mms))).
Proof.
  intros HBS. unfold get_memory_map_c.get_memory_map. cbn. rewrite HBS.
  cbn. unfold bind.
  match goal with
  | |- context [get_memory_map_c.attempts BS ?n ?r ?v ?w] =>
      destruct (map_attempts_sound BS n r v w) as (t & h & Hc & Hr & Hs);
      destruct (get_memory_map_c.attempts BS n r v w) as [[fl v1] w1]
  end.
  cbn in *. exists h. rewrite <- Hs.
  destruct fl; cbn in *; rewrite Hc; auto.
Qed.

Lemma exit_attempt_sound (BS : EFI_BOOT_SERVICES F)
  (ImageHandle : EFI_HANDLE) (Retry : UINTN)
  (v : exit_boot_services_c.Vars) (w : World F) :
  let res := exit_boot_services_c.attempt BS ImageHandle Retry v w in
  exists t,
    calls (snd res) = calls w ++ t /\
    exit_pass ImageHandle t (fst (fst res)).
Proof.
  unfold exit_boot_services_c.attempt, bind, call_probe, call_AllocatePool,
    call_fetch, call_FreePool, call_ExitBootServices, record_call, UEFI_LOG,
    ret.
  cbn. step_GetMemoryMap r.
  destruct (Z.eqb_spec (reply_Status r) EFI_BUFFER_TOO_SMALL) as [Hp | Hp];
    cbn.
  2: { exists [ProbeCall r]. split; trivial.
       apply exit_fatal. now apply probe_anomaly. }
  step_AllocatePool st p.
  destruct (EFI_ERROR st) eqn:Ha; cbn.
  { eexists. rewrite <- app_assoc. cbn. split; [reflexivity|].
    apply exit_fatal. now apply (pool_failure 8). }
  step_GetMemoryMap r'.
  destruct (EFI_ERROR (reply_Status r')) eqn:Hf; cbn.
  { step_FreePool. eexists. rewrite <- !app_assoc. cbn.
    split; [reflexivity|]. apply exit_retry. now apply (fetch_failure 8). }
  step_ExitBootServices st'.
  destruct (Z.eqb_spec st' EFI_SUCCESS) as [He | He]; cbn.
  - eexists. rewrite <- !app_assoc. cbn. split; [reflexivity|]. subst st'.
    apply (exit_done ImageHandle
             [ProbeCall r;
              AllocatePoolCall EfiLoaderData (slack_size 8 r) st p;
              FetchCall (slack_size 8 r) p r'] p r').
    now apply fetch_success.
  - step_FreePool. eexists. rewrite <- !app_assoc. cbn.
    split; [reflexivity|].
    apply (exit_stale ImageHandle
             [ProbeCall r;
              AllocatePoolCall EfiLoaderData (slack_size 8 r) st p;
              FetchCall (slack_size 8 r) p r'] p r' st'); [|exact He].
    now apply fetch_success.
Qed.

Lemma exit_attempts_sound (BS : EFI_BOOT_SERVICES F)
  (ImageHandle : EFI_HANDLE) (left : nat) :
  forall (Retry : UINTN) (v : exit_boot_services_c.Vars) (w : World F),
  let res := exit_boot_services_c.attempts BS ImageHandle left Retry v w in
  exists t,
    calls (snd res) = calls w ++ t /\
    exit_run ImageHandle left t (exit_status (fst (fst res))).
Proof.
  induction left as [|left IH]; intros Retry v w; cbn.
  - exists []. rewrite app_nil_r. split; trivial. constructor.
  - unfold bind.
    destruct (exit_attempt_sound BS ImageHandle Retry v w) as (t & Hc & Hp).
    destruct (exit_boot_services_c.attempt BS ImageHandle Retry v w)
      as [[fl v1] w1].
    cbn in *. destruct fl as [s|]; cbn.
    + exists t. split; trivial. now apply exit_returned.
    + destruct (IH (to_UINTN (Retry + 1)) v1 w1) as (t' & Hc' & Hr).
      exists (t ++ t'). rewrite Hc', Hc, app_assoc. split; trivial.
      now apply exit_again.
Qed.

(** exit_boot_services with a non-null handle and a ready environment: its
    calls and its status form a run of 8 passes. *)
Lemma exit_boot_services_sound (gST : option (EFI_SYSTEM_TABLE F))
  (BS : EFI_BOOT_SERVICES F) (ImageHandle : EFI_HANDLE) (f : F) :
  boot_services gST = Some BS ->
  ImageHandle <> NULL ->
  let res :=
    exit_boot_services_c.exit_boot_services gST ImageHandle (boot f) in
  exit_run ImageHandle 8 (calls (snd res)) (fst res).
Proof.
  intros HBS Hh. unfold exit_boot_services_c.exit_boot_services.
  destruct (Z.eqb_spec ImageHandle NULL) as [|_]; [contradiction|].
  cbn. rewrite HBS. unfold bind.
  match goal with
  | |- context [exit_boot_services_c.attempts BS ?i ?n ?r ?v ?w] =>
      destruct (exit_attempts_sound BS i n r v w) as (t & Hc & Hr);
      destruct (exit_boot_services_c.attempts BS i n r v w) as [[fl v1] w1]
  end.
  cbn in *. destruct fl; cbn in *; rewrite Hc; exact Hr.
Qed.

End Soundness.

(** ** Facts about traces *)

Lemma count_app (p : Call -> bool) (t t' : list Call) :
  count p (t ++ t') = (count p t + count p t')%nat.
Proof.
  unfold count. now rewrite filter_app, length_app.
Qed.

Lemma final_call_app (t t' : list Call) :
  final_call (t ++ t')
  = match final_call t' with
    | Some c => Some c
    | None => final_call t
    end.
Proof.
  induction t as [|c t IH]; cbn.
  - now destruct (final_call t').
  - rewrite IH. now destruct (final_call t').
Qed.

Lemma each_call_app (P : list Call -> Call -> Prop) (t t' : list Call) :
  forall before,
  each_call P before (t ++ t')
  <-> each_call P before t /\ each_call P (rev t ++ before) t'.
Proof.
  induction t as [|c t IH]; intros before; cbn.
  - tauto.
  - rewrite IH, <- app_assoc. cbn. tauto.
Qed.

Lemma each_call_at (P : list Call -> Call -> Prop) (pre post : list Call)
  (c : Call) (before : list Call) :
  each_call P before (pre ++ c :: post) -> P (rev pre ++ before) c.
Proof.
  intros E. apply each_call_app in E. cbn in E. tauto.
Qed.

(** A call found in a concatenation is found in one of its two parts. *)
Lemma app_split_cases (t t' pre post : list Call) (c : Call) :
  t ++ t' = pre ++ c :: post ->
  (exists x, t = pre ++ c :: x /\ post = x ++ t') \/
  (exists x, pre = t ++ x /\ t' = x ++ c :: post).
Proof.
  revert pre. induction t as [|a t IH]; intros pre E; cbn in *.
  - right. now exists pre.
  - destruct pre as [|a' pre]; cbn in *.
    + inversion E; subst. left. now exists t.
    + inversion E as [[Ea Et]]. subst a'.
      destruct (IH pre Et) as [(x & -> & ->) | (x & -> & ->)].
      * left. now exists x.
      * right. now exists x.
Qed.

(** Knowing the calls before a call, latest first, is knowing how the
    trace before it ends. *)
Lemma rev_eq_app (pre l l' : list Call) :
  rev pre ++ [] = l ++ l' -> pre = rev l' ++ rev l.
Proof.
  rewrite app_nil_r. intros E.
  rewrite <- (rev_involutive pre), E. apply rev_app_distr.
Qed.

Lemma aligned_spec (b : pointer) : aligned b = true <-> b mod 8 = 0.
Proof.
  unfold aligned, to_UINTN, sizeof_UINT64, UINTN_BITS.
  rewrite Z.eqb_eq.
  rewrite Z.mod_mod_divide; [reflexivity|].
  exists (2 ^ 61). reflexivity.
Qed.

Lemma aligned_false (b : pointer) : aligned b = false <-> b mod 8 <> 0.
Proof.
  rewrite <- aligned_spec. destruct (aligned b); split; congruence.
Qed.

Section TraceFacts.
Context `{uefi_headers}.

Lemma slack_size_spec (extra : Z) (r : MemoryMapReply) :
  slack_size extra r
  = (reply_MemoryMapSize r + reply_DescriptorSize r * extra) mod 2 ^ 64.
Proof.
  unfold slack_size, to_UINTN, UINTN_BITS. apply Zplus_mod_idemp_r.
Qed.

Lemma outstanding_app (t t' : list Call) :
  forall live,
  outstanding live (t ++ t') = outstanding (outstanding live t) t'.
Proof.
  induction t as [|c t IH]; intros live; cbn; [reflexivity|].
  destruct c; try apply IH.
  destruct (EFI_ERROR Status); apply IH.
Qed.

End TraceFacts.

(** ** Runs of get_memory_map's loop *)

Section MapRuns.
Context `{uefi_headers}.

Ltac invert_pass :=
  repeat match goal with
  | P : map_pass _ _ _ |- _ => inversion P; subst; clear P
  | A : acquisition _ _ _ |- _ => inversion A; subst; clear A
  end.

Ltac use_status :=
  repeat match goal with
  | E : EFI_ERROR _ = _ |- _ => rewrite E in *; clear E
  end.

(** Only the pass that returns EFI_SUCCESS after an aligned fetch stores
    anything through MemoryMap and MemoryMapSize. *)
Lemma map_run_stores_on_success (left : nat) (t : list Call)
  (s : EFI_STATUS) (h : option (pointer * UINTN)) :
  map_run left t s h -> h <> None -> s = EFI_SUCCESS.
Proof.
  induction 1 as [|left t s h P|left t t' s h P R IH]; intros Hh.
  - contradiction.
  - inversion P; subst; congruence.
  - now apply IH.
Qed.

Lemma map_pass_outstanding (t : list Call) (fl : Flow)
  (h : option (pointer * UINTN)) :
  map_pass t fl h ->
  outstanding [] t = match h with Some (b, _) => [b] | None => [] end.
Proof.
  intros P. invert_pass; cbn; use_status; cbn;
    rewrite ?Z.eqb_refl; reflexivity.
Qed.

(** Whatever the firmware answers, the buffers get_memory_map leaves
    allocated are the one it hands over, if it hands one over. *)
Lemma map_run_outstanding (left : nat) (t : list Call) (s : EFI_STATUS)
  (h : option (pointer * UINTN)) :
  map_run left t s h ->
  outstanding [] t = match h with Some (b, _) => [b] | None => [] end.
Proof.
  induction 1 as [|left t s h P|left t t' s h P R IH].
  - reflexivity.
  - now apply map_pass_outstanding with (fl := Returned s).
  - rewrite outstanding_app.
    now rewrite (map_pass_outstanding _ _ _ P).
Qed.

(** A pass that falls through is a failed fetch: four calls, of which one
    allocation and one release. *)
Lemma map_pass_fallthrough (t : list Call) (h : option (pointer * UINTN)) :
  map_pass t Fallthrough h ->
  count is_failed_fetch t = 1%nat /\
  count is_allocation t = 1%nat /\
  count is_release t = 1%nat /\
  count is_probe t = 1%nat /\
  exists c, final_call t = Some (FreePoolCall c).
Proof.
  intros P. invert_pass. unfold count. cbn. use_status. cbn.
  repeat split. now eexists.
Qed.

(** A pass that returns has no failed fetch. *)
Lemma map_pass_returned_no_failed_fetch (t : list Call) (s : EFI_STATUS)
  (h : option (pointer * UINTN)) :
  map_pass t (Returned s) h -> count is_failed_fetch t = 0%nat.
Proof.
  intros P. invert_pass; unfold count; cbn; use_status; reflexivity.
Qed.

(** A run in which every pass left failed on its fetch. *)
Lemma map_run_all_failed (left : nat) (t : list Call) (s : EFI_STATUS)
  (h : option (pointer * UINTN)) :
  map_run left t s h ->
  count is_failed_fetch t = left ->
  s = EFI_DEVICE_ERROR /\ h = None /\
  count is_probe t = left /\
  count is_allocation t = left /\
  count is_release t = left.
Proof.
  induction 1 as [|left t s h P|left t t' s h P R IH]; intros Hn.
  - repeat split.
  - rewrite (map_pass_returned_no_failed_fetch _ _ _ P) in Hn. lia.
  - rewrite !count_app in *.
    destruct (map_pass_fallthrough _ _ P) as (Ef & Ea & Er & Ep & _).
    rewrite Ef in Hn. rewrite Ea, Er, Ep.
    destruct IH as (-> & -> & -> & -> & ->); [lia|]. repeat split.
Qed.

(** A pass whose last call is a fetch handed that fetch's buffer over. *)
Lemma map_pass_final_fetch (t : list Call) (fl : Flow)
  (h : option (pointer * UINTN)) (sz : UINTN) (b : pointer)
  (r : MemoryMapReply) :
  map_pass t fl h ->
  final_call t = Some (FetchCall sz b r) ->
  fl = Returned EFI_SUCCESS /\
  h = Some (b, reply_MemoryMapSize r) /\
  EFI_ERROR (reply_Status r) = false /\
  aligned b = true /\
  count is_failed_fetch t = 0%nat /\
  count is_allocation t = 1%nat /\
  count is_release t = 0%nat /\
  exists r0 st,
    reply_Status r0 = EFI_BUFFER_TOO_SMALL /\
    sz = slack_size get_memory_map_c.MEMORY_MAP_EXTRA_DESCRIPTORS r0 /\
    t = [ProbeCall r0; AllocatePoolCall EfiLoaderData sz st b;
         FetchCall sz b r].
Proof.
  intros P Hf. invert_pass; cbn in Hf; try discriminate.
  inversion Hf; subst. unfold count. cbn. use_status.
  repeat split; trivial. eexists _, _. repeat split; trivial.
Qed.

(** A run whose last call is a fetch: that fetch succeeded on an aligned
    buffer, every pass before it failed on its fetch, and the buffer of
    the last fetch is handed over. *)
Lemma map_run_final_fetch (left : nat) (t : list Call) (s : EFI_STATUS)
  (h : option (pointer * UINTN)) (sz : UINTN) (b : pointer)
  (r : MemoryMapReply) :
  map_run left t s h ->
  final_call t = Some (FetchCall sz b r) ->
  s = EFI_SUCCESS /\
  h = Some (b, reply_MemoryMapSize r) /\
  EFI_ERROR (reply_Status r) = false /\
  aligned b = true /\
  (count is_failed_fetch t < left)%nat /\
  count is_allocation t = S (count is_failed_fetch t) /\
  count is_release t = count is_failed_fetch t /\
  exists pre r0 st,
    reply_Status r0 = EFI_BUFFER_TOO_SMALL /\
    sz = slack_size get_memory_map_c.MEMORY_MAP_EXTRA_DESCRIPTORS r0 /\
    t = pre ++ [ProbeCall r0; AllocatePoolCall EfiLoaderData sz st b;
                FetchCall sz b r].
Proof.
  induction 1 as [|left t s h P|left t t' s h P R IH]; intros Hf.
  - discriminate.
  - destruct (map_pass_final_fetch _ _ _ _ _ _ P Hf)
      as (E & -> & ? & ? & -> & -> & -> & r0 & st & ? & ? & ->).
    inversion E; subst. repeat split; trivial; try lia.
    exists [], r0, st. repeat split; trivial.
  - rewrite final_call_app in Hf.
    destruct (map_pass_fallthrough _ _ P) as (Ef & Ea & Er & _ & c & Ec).
    destruct (final_call t') as [c'|] eqn:Ef'.
    + inversion Hf; subst c'.
      destruct (IH eq_refl)
        as (-> & -> & ? & ? & ? & Ha' & Hr' & pre & r0 & st & ? & ? & Et').
      rewrite !count_app, Ef, Ea, Er, Ha', Hr'.
      repeat split; trivial; try lia.
      exists (t ++ pre), r0, st. rewrite Et', <- app_assoc.
      repeat split; trivial.
    + congruence.
Qed.

End MapRuns.

(** ** What comes before and after a call *)

Section Neighbours.
Context `{uefi_headers}.

Ltac invert_pass :=
  repeat match goal with
  | P : map_pass _ _ _ |- _ => inversion P; subst; clear P
  | P : exit_pass _ _ _ |- _ => inversion P; subst; clear P
  | A : acquisition _ _ _ |- _ => inversion A; subst; clear A
  end.

(** Finds a call in a trace of at most five calls. *)
Ltac locate E pre :=
  destruct pre as [|? [|? [|? [|? [|? pre]]]]]; cbn in E;
  inversion E; subst; clear E;
  try match goal with
      | E' : [] = ?l ++ _ :: _ |- _ => destruct l; discriminate E'
      end.

Lemma map_run_each_call (P : list Call -> Call -> Prop) :
  (forall t fl h before, map_pass t fl h -> each_call P before t) ->
  forall left t s h, map_run left t s h ->
  forall before, each_call P before t.
Proof.
  intros Hpass. induction 1 as [|left t s h Q|left t t' s h Q R IH];
    intros before.
  - exact I.
  - now apply Hpass with (fl := Returned s) (h := h).
  - apply each_call_app. split; [|apply IH].
    now apply Hpass with (fl := Fallthrough) (h := None).
Qed.

Lemma exit_run_each_call (ImageHandle : EFI_HANDLE)
  (P : list Call -> Call -> Prop) :
  (forall t fl before, exit_pass ImageHandle t fl -> each_call P before t) ->
  forall left t s, exit_run ImageHandle left t s ->
  forall before, each_call P before t.
Proof.
  intros Hpass. induction 1 as [|left t s Q|left t t' s Q R IH];
    intros before.
  - exact I.
  - now apply Hpass with (fl := Returned s).
  - apply each_call_app. split; [|apply IH].
    now apply Hpass with (fl := Fallthrough).
Qed.

Lemma map_pass_sized (t : list Call) (fl : Flow)
  (h : option (pointer * UINTN)) (before : list Call) :
  map_pass t fl h ->
  each_call (sized_by_probe get_memory_map_c.MEMORY_MAP_EXTRA_DESCRIPTORS)
    before t.
Proof.
  intros P. invert_pass; cbn; repeat split; trivial.
Qed.

Lemma map_pass_releases (t : list Call) (fl : Flow)
  (h : option (pointer * UINTN)) (before : list Call) :
  map_pass t fl h -> each_call releases_fetched before t.
Proof.
  intros P. invert_pass; cbn; repeat split; trivial.
Qed.

Lemma exit_pass_sized (ImageHandle : EFI_HANDLE) (t : list Call) (fl : Flow)
  (before : list Call) :
  exit_pass ImageHandle t fl -> each_call (sized_by_probe 8) before t.
Proof.
  intros P. invert_pass; cbn; repeat split; trivial.
Qed.

Lemma exit_pass_fresh_key (ImageHandle : EFI_HANDLE) (t : list Call)
  (fl : Flow) (before : list Call) :
  exit_pass ImageHandle t fl -> each_call (fresh_key ImageHandle) before t.
Proof.
  intros P. invert_pass; cbn; repeat split; trivial.
Qed.

(** In a pass of get_memory_map, a successful fetch is the last call when
    its buffer is aligned, and is followed by the release of its buffer
    and nothing else when it is not. *)
Lemma map_pass_after_fetch (t : list Call) (fl : Flow)
  (h : option (pointer * UINTN)) (pre post : list Call) (sz : UINTN)
  (b : pointer) (r : MemoryMapReply) :
  map_pass t fl h ->
  t = pre ++ FetchCall sz b r :: post ->
  EFI_ERROR (reply_Status r) = false ->
  (aligned b = true /\ post = [] /\ fl = Returned EFI_SUCCESS /\
   h = Some (b, reply_MemoryMapSize r)) \/
  (aligned b = false /\ post = [FreePoolCall b] /\
   fl = Returned EFI_DEVICE_ERROR /\ h = None).
Proof.
  intros P. invert_pass; intros E Hok; locate E pre; try congruence.
  - right. repeat split; trivial.
  - left. repeat split; trivial.
Qed.

Lemma map_run_after_fetch (left : nat) (t : list Call) (s : EFI_STATUS)
  (h : option (pointer * UINTN)) :
  map_run left t s h ->
  forall (pre post : list Call) (sz : UINTN) (b : pointer)
         (r : MemoryMapReply),
  t = pre ++ FetchCall sz b r :: post ->
  EFI_ERROR (reply_Status r) = false ->
  (aligned b = true /\ post = [] /\ s = EFI_SUCCESS /\
   h = Some (b, reply_MemoryMapSize r)) \/
  (aligned b = false /\ post = [FreePoolCall b] /\
   s = EFI_DEVICE_ERROR /\ h = None).
Proof.
  induction 1 as [|left t s h P|left t t' s h P R IH];
    intros pre post sz b r E Hok.
  - destruct pre; discriminate.
  - destruct (map_pass_after_fetch _ _ _ _ _ _ _ _ P E Hok)
      as [(? & ? & Efl & ?) | (? & ? & Efl & ?)];
      inversion Efl; subst; [left | right]; repeat split; trivial.
  - apply app_split_cases in E.
    destruct E as [(x & E & _) | (x & _ & E)].
    + destruct (map_pass_after_fetch _ _ _ _ _ _ _ _ P E Hok)
        as [(_ & _ & Efl & _) | (_ & _ & Efl & _)]; discriminate.
    + now apply (IH x post sz b r).
Qed.

(** In a pass of exit_boot_services, a successful fetch is followed by the
    handshake, with the key that fetch left, whatever the address of the
    buffer. *)
Lemma exit_pass_after_fetch (ImageHandle : EFI_HANDLE) (t : list Call)
  (fl : Flow) (pre post : list Call) (sz : UINTN) (b : pointer)
  (r : MemoryMapReply) :
  exit_pass ImageHandle t fl ->
  t = pre ++ FetchCall sz b r :: post ->
  EFI_ERROR (reply_Status r) = false ->
  exists s post',
    post = ExitBootServicesCall ImageHandle (reply_MapKey r) s :: post'.
Proof.
  intros P. invert_pass; intros E Hok; locate E pre; try congruence;
    now eexists _, _.
Qed.

Lemma exit_run_after_fetch (ImageHandle : EFI_HANDLE) (left : nat)
  (t : list Call) (s : EFI_STATUS) :
  exit_run ImageHandle left t s ->
  forall (pre post : list Call) (sz : UINTN) (b : pointer)
         (r : MemoryMapReply),
  t = pre ++ FetchCall sz b r :: post ->
  EFI_ERROR (reply_Status r) = false ->
  exists s' post',
    post = ExitBootServicesCall ImageHandle (reply_MapKey r) s' :: post'.
Proof.
  induction 1 as [|left t s P|left t t' s P R IH];
    intros pre post sz b r E Hok.
  - destruct pre; discriminate.
  - now apply (exit_pass_after_fetch _ _ _ _ _ _ _ _ P E Hok).
  - apply app_split_cases in E.
    destruct E as [(x & E & ->) | (x & _ & E)].
    + destruct (exit_pass_after_fetch _ _ _ _ _ _ _ _ P E Hok)
        as (s' & post' & ->).
      now exists s', (post' ++ t').
    + now apply (IH x post sz b r).
Qed.

(** In a pass, a probe that answers anything but "buffer too small" is the
    only call, and the pass returns that answer. *)
Lemma map_pass_after_probe (t : list Call) (fl : Flow)
  (h : option (pointer * UINTN)) (pre post : list Call)
  (r : MemoryMapReply) :
  map_pass t fl h ->
  t = pre ++ ProbeCall r :: post ->
  reply_Status r <> EFI_BUFFER_TOO_SMALL ->
  post = [] /\ fl = Returned (reply_Status r) /\ h = None.
Proof.
  intros P. invert_pass; intros E Hn; locate E pre; try congruence.
  repeat split.
Qed.

Lemma map_run_after_probe (left : nat) (t : list Call) (s : EFI_STATUS)
  (h : option (pointer * UINTN)) :
  map_run left t s h ->
  forall (pre post : list Call) (r : MemoryMapReply),
  t = pre ++ ProbeCall r :: post ->
  reply_Status r <> EFI_BUFFER_TOO_SMALL ->
  post = [] /\ s = reply_Status r /\ h = None.
Proof.
  induction 1 as [|left t s h P|left t t' s h P R IH];
    intros pre post r E Hn.
  - destruct pre; discriminate.
  - destruct (map_pass_after_probe _ _ _ _ _ _ P E Hn) as (? & Efl & ?).
    inversion Efl. repeat split; trivial.
  - apply app_split_cases in E.
    destruct E as [(x & E & _) | (x & _ & E)].
    + destruct (map_pass_after_probe _ _ _ _ _ _ P E Hn) as (_ & Efl & _).
      discriminate.
    + now apply (IH x post r).
Qed.

Lemma exit_pass_after_probe (ImageHandle : EFI_HANDLE) (t : list Call)
  (fl : Flow) (pre post : list Call) (r : MemoryMapReply) :
  exit_pass ImageHandle t fl ->
  t = pre ++ ProbeCall r :: post ->
  reply_Status r <> EFI_BUFFER_TOO_SMALL ->
  post = [] /\ fl = Returned (reply_Status r).
Proof.
  intros P. invert_pass; intros E Hn; locate E pre; try congruence.
  repeat split.
Qed.

Lemma exit_run_after_probe (ImageHandle : EFI_HANDLE) (left : nat)
  (t : list Call) (s : EFI_STATUS) :
  exit_run ImageHandle left t s ->
  forall (pre post : list Call) (r : MemoryMapReply),
  t = pre ++ ProbeCall r :: post ->
  reply_Status r <> EFI_BUFFER_TOO_SMALL ->
  post = [] /\ s = reply_Status r.
Proof.
  induction 1 as [|left t s P|left t t' s P R IH];
    intros pre post r E Hn.
  - destruct pre; discriminate.
  - destruct (exit_pass_after_probe _ _ _ _ _ _ P E Hn) as (? & Efl).
    inversion Efl. repeat split; trivial.
  - apply app_split_cases in E.
    destruct E as [(x & E & _) | (x & _ & E)].
    + destruct (exit_pass_after_probe _ _ _ _ _ _ P E Hn) as (_ & Efl).
      discriminate.
    + now apply (IH x post r).
Qed.

End Neighbours.

(** ** Runs of exit_boot_services's loop *)

Section ExitRuns.
Context `{uefi_headers}.

Lemma stale_passes_count (ImageHandle : EFI_HANDLE)
  (passes : list (list Call)) :
  Forall (stale_pass ImageHandle) passes ->
  count is_handshake (List.concat passes) = List.length passes /\
  count is_probe (List.concat passes) = List.length passes /\
  List.length (List.concat passes) = (5 * List.length passes)%nat.
Proof.
  induction 1 as [|t passes (r & sz & s & b & r' & k & s' & -> & _) _ IH].
  - repeat split.
  - destruct IH as (Eh & Ep & El). cbn [List.concat].
    rewrite !count_app, length_app, Eh, Ep, El. cbn. repeat split; lia.
Qed.

(** A run in which every probe answered "buffer too small", every
    allocation and every fetch succeeded and every handshake was refused
    is made of [left] refused passes, and ends in EFI_ABORTED. *)
Lemma exit_run_all_stale (ImageHandle : EFI_HANDLE) (left : nat)
  (t : list Call) (s : EFI_STATUS) :
  exit_run ImageHandle left t s ->
  (forall r, In (ProbeCall r) t -> reply_Status r = EFI_BUFFER_TOO_SMALL) ->
  (forall ty sz st b, In (AllocatePoolCall ty sz st b) t ->
                      EFI_ERROR st = false) ->
  (forall sz b r, In (FetchCall sz b r) t ->
                  EFI_ERROR (reply_Status r) = false) ->
  (forall h k st, In (ExitBootServicesCall h k st) t ->
                  st <> EFI_SUCCESS) ->
  s = EFI_ABORTED /\
  exists passes,
    t = List.concat passes /\
    List.length passes = left /\
    Forall (stale_pass ImageHandle) passes.
Proof.
  induction 1 as [|left t s P|left t t' s P R IH];
    intros Hprobe Halloc Hfetch Hexit.
  - split; trivial. now exists [].
  - exfalso. inversion P; subst.
    + match goal with A : acquisition _ _ _ |- _ => inversion A; subst end.
      * match goal with
        | Hn : reply_Status ?r <> _ |- _ => apply Hn, (Hprobe r); now left
        end.
      * match goal with
        | He : EFI_ERROR ?st = true |- _ =>
            assert (EFI_ERROR st = false)
              by (eapply Halloc; right; left; reflexivity);
            congruence
        end.
    + eapply (Hexit _ _ EFI_SUCCESS); [|reflexivity].
      apply in_or_app. right. now left.
  - destruct IH as (-> & passes & -> & <- & Hall).
    + intros r Hin. apply Hprobe, in_or_app. now right.
    + intros ty sz st b Hin. apply (Halloc ty sz st b), in_or_app.
      now right.
    + intros sz b r Hin. apply (Hfetch sz b r), in_or_app. now right.
    + intros h k st Hin. apply (Hexit h k st), in_or_app. now right.
    + split; trivial. exists (t :: passes). repeat split; trivial.
      constructor; trivial.
      inversion P; subst;
        match goal with A : acquisition _ _ _ |- _ => inversion A; subst end.
      * exfalso.
        match goal with
        | He : EFI_ERROR (reply_Status ?r) = true |- _ =>
            assert (EFI_ERROR (reply_Status r) = false)
              by (eapply Hfetch, in_or_app; left; right; right; left;
                  reflexivity);
            congruence
        end.
      * cbn. now eexists _, _, _, _, _, _, _.
Qed.

Lemma exit_pass_fallthrough_probe (ImageHandle : EFI_HANDLE)
  (t : list Call) :
  exit_pass ImageHandle t Fallthrough -> count is_probe t = 1%nat.
Proof.
  intros P. inversion P; subst;
    match goal with A : acquisition _ _ _ |- _ => inversion A; subst end;
    reflexivity.
Qed.

(** A run in which no probe and no allocation failed and no handshake was
    accepted never returns from inside the loop: it is made of [left]
    passes that fall through, and ends in EFI_ABORTED. *)
Lemma exit_run_never_returns (ImageHandle : EFI_HANDLE) (left : nat)
  (t : list Call) (s : EFI_STATUS) :
  exit_run ImageHandle left t s ->
  (forall r, In (ProbeCall r) t -> reply_Status r = EFI_BUFFER_TOO_SMALL) ->
  (forall ty sz st b, In (AllocatePoolCall ty sz st b) t ->
                      EFI_ERROR st = false) ->
  (forall h k st, In (ExitBootServicesCall h k st) t ->
                  st <> EFI_SUCCESS) ->
  s = EFI_ABORTED /\
  count is_probe t = left /\
  exists passes,
    t = List.concat passes /\
    List.length passes = left /\
    Forall (fun p => exit_pass ImageHandle p Fallthrough) passes.
Proof.
  induction 1 as [|left t s P|left t t' s P R IH];
    intros Hprobe Halloc Hexit.
  - repeat split. now exists [].
  - exfalso. inversion P; subst.
    + match goal with A : acquisition _ _ _ |- _ => inversion A; subst end.
      * match goal with
        | Hn : reply_Status ?r <> _ |- _ => apply Hn, (Hprobe r); now left
        end.
      * match goal with
        | He : EFI_ERROR ?st = true |- _ =>
            assert (EFI_ERROR st = false)
              by (eapply Halloc; right; left; reflexivity);
            congruence
        end.
    + eapply (Hexit _ _ EFI_SUCCESS); [|reflexivity].
      apply in_or_app. right. now left.
  - destruct IH as (-> & <- & passes & -> & El & Hall).
    + intros r Hin. apply Hprobe, in_or_app. now right.
    + intros ty sz st b Hin. apply (Halloc ty sz st b), in_or_app.
      now right.
    + intros h k st Hin. apply (Hexit h k st), in_or_app. now right.
    + rewrite count_app, (exit_pass_fallthrough_probe _ _ P).
      repeat split. exists (t :: passes). cbn. rewrite El.
      repeat split. now constructor.
Qed.

End ExitRuns.

(** ** The status codes of the UEFI specification satisfy the laws *)

Lemma uefi64_laws : @uefi_status_laws uefi64.
Proof.
  split; reflexivity.
Qed.

(** ** Claims *)

Section Claims.
Context `{uefi_headers} {F : Type}.

Lemma not_ready_spec (gST : option (EFI_SYSTEM_TABLE F)) :
  not_ready gST <-> boot_services gST = None.
Proof.
  unfold not_ready. destruct gST as [ST|]; cbn.
  - split.
    + intros [E | (ST' & E & E')]; congruence.
    + intros E. right. now exists ST.
  - split; auto.
Qed.

Lemma any_null_false (args : get_memory_map_c.OutParams) :
  get_memory_map_c.any_null args = false ->
  exists mm mms mk ds dv,
    args = get_memory_map_c.valid_pointers mm mms mk ds dv.
Proof.
  destruct args as [[mm|] [mms|] [mk|] [ds|] [dv|]]; try discriminate.
  intros _. now exists mm, mms, mk, ds, dv.
Qed.

(** get_memory_map with a null argument or an unready environment stops
    before its loop. *)
Lemma get_memory_map_not_started (gST : option (EFI_SYSTEM_TABLE F))
  (args : get_memory_map_c.OutParams) (f : F) :
  get_memory_map_c.any_null args = true \/ boot_services gST = None ->
  let res := get_memory_map_c.get_memory_map gST args (boot f) in
  fst (fst res) = (if get_memory_map_c.any_null args
                   then EFI_INVALID_PARAMETER else EFI_NOT_READY) /\
  snd (fst res) = args /\
  calls (snd res) = [] /\
  firmware (snd res) = f.
Proof.
  unfold get_memory_map_c.get_memory_map, get_memory_map_c.any_null.
  destruct args as [[mm|] [mms|] [mk|] [ds|] [dv|]]; cbn;
    try solve [intros _; repeat split].
  intros [E | E]; [discriminate|]. rewrite E. cbn. repeat split.
Qed.

(** Every execution of get_memory_map either stops before its loop, or is
    a run of 8 passes. *)
Lemma get_memory_map_run (gST : option (EFI_SYSTEM_TABLE F))
  (args : get_memory_map_c.OutParams) (f : F) :
  let res := get_memory_map_c.get_memory_map gST args (boot f) in
  ((get_memory_map_c.any_null args = true \/ boot_services gST = None) /\
   calls (snd res) = []) \/
  (exists h,
     map_run 8 (calls (snd res)) (fst (fst res)) h /\
     get_memory_map_c.MemoryMap (snd (fst res))
     = match h with
       | Some (b, _) => Some b
       | None => get_memory_map_c.MemoryMap args
       end /\
     get_memory_map_c.MemoryMapSize (snd (fst res))
     = match h with
       | Some (_, sz) => Some sz
       | None => get_memory_map_c.MemoryMapSize args
       end).
Proof.
  cbn zeta.
  destruct (get_memory_map_c.any_null args) eqn:En.
  { left. split; [now left|].
    apply (get_memory_map_not_started gST args f). now left. }
  destruct (boot_services gST) as [BS|] eqn:HBS.
  2: { left. split; [now right|].
       apply (get_memory_map_not_started gST args f). now right. }
  right. destruct (any_null_false args En) as (mm & mms & mk & ds & dv & ->).
  destruct (get_memory_map_sound gST BS mm mms mk ds dv f HBS)
    as (h & R & Em & Es).
  exists h. rewrite Em, Es. destruct h as [[b sz]|]; cbn; auto.
Qed.

(** exit_boot_services with a null handle or an unready environment stops
    before its loop. *)
Lemma exit_boot_services_not_started (gST : option (EFI_SYSTEM_TABLE F))
  (ImageHandle : EFI_HANDLE) (f : F) :
  ImageHandle = NULL \/ boot_services gST = None ->
  let res :=
    exit_boot_services_c.exit_boot_services gST ImageHandle (boot f) in
  fst res = (if ImageHandle =? NULL then EFI_INVALID_PARAMETER
             else EFI_NOT_READY) /\
  calls (snd res) = [] /\
  firmware (snd res) = f.
Proof.
  intros Hyp. unfold exit_boot_services_c.exit_boot_services.
  destruct (Z.eqb_spec ImageHandle NULL) as [E | E]; cbn.
  - repeat split.
  - destruct Hyp as [? | Hn]; [contradiction|].
    rewrite Hn. cbn. repeat split.
Qed.

(** Every execution of exit_boot_services either stops before its loop,
    or is a run of 8 passes. *)
Lemma exit_boot_services_run (gST : option (EFI_SYSTEM_TABLE F))
  (ImageHandle : EFI_HANDLE) (f : F) :
  let res :=
    exit_boot_services_c.exit_boot_services gST ImageHandle (boot f) in
  calls (snd res) = [] \/
  exit_run ImageHandle 8 (calls (snd res)) (fst res).
Proof.
  cbn zeta.
  destruct (Z.eq_dec ImageHandle NULL) as [E | E].
  { left. apply (exit_boot_services_not_started gST ImageHandle f).
    now left. }
  destruct (boot_services gST) as [BS|] eqn:HBS.
  - right. now apply (exit_boot_services_sound gST BS).
  - left. apply (exit_boot_services_not_started gST ImageHandle f).
    now right.
Qed.

(** A call is never found in an empty trace. *)
Lemma not_in_empty_trace (pre post : list Call) (c : Call) :
  [] = pre ++ c :: post -> False.
Proof.
  destruct pre; discriminate.
Qed.

(** A run that returns EFI_SUCCESS although no probe answered EFI_SUCCESS
    ends with its last fetch. *)
Lemma map_run_success_final_fetch {L : uefi_status_laws} (left : nat)
  (t : list Call) (s : EFI_STATUS) (h : option (pointer * UINTN)) :
  map_run left t s h ->
  s = EFI_SUCCESS ->
  (forall r, In (ProbeCall r) t -> reply_Status r <> EFI_SUCCESS) ->
  exists sz b r, final_call t = Some (FetchCall sz b r).
Proof.
  pose proof success_is_no_error as Hok.
  pose proof device_error_is_error as Hde.
  induction 1 as [|left t s h P|left t t' s h P R IH]; intros Hs Hp.
  - congruence.
  - inversion P; subst;
      match goal with A : acquisition _ _ _ |- _ => inversion A; subst end;
      try congruence.
    + exfalso.
      match goal with
      | Hr : reply_Status ?r = EFI_SUCCESS |- _ =>
          apply (Hp r); [now left | exact Hr]
      end.
    + cbn. now eexists _, _, _.
  - destruct IH as (sz & b & r & Ef); trivial.
    + intros r Hin. apply Hp, in_or_app. now right.
    + exists sz, b, r. now rewrite final_call_app, Ef.
Qed.

(** A probe that answers anything but "buffer too small" is the last call
    of either function, which returns the probe's status as it is, be it
    an error or not; get_memory_map then stores nothing through MemoryMap
    and MemoryMapSize. *)
Lemma probe_anomaly_is_returned_as_is
  (gST : option (EFI_SYSTEM_TABLE F)) (args : get_memory_map_c.OutParams)
  (ImageHandle : EFI_HANDLE) (f : F) :
  (let res := get_memory_map_c.get_memory_map gST args (boot f) in
   forall pre r post,
     calls (snd res) = pre ++ ProbeCall r :: post ->
     reply_Status r <> EFI_BUFFER_TOO_SMALL ->
     post = [] /\
     fst (fst res) = reply_Status r /\
     get_memory_map_c.MemoryMap (snd (fst res))
     = get_memory_map_c.MemoryMap args /\
     get_memory_map_c.MemoryMapSize (snd (fst res))
     = get_memory_map_c.MemoryMapSize args) /\
  (let res :=
     exit_boot_services_c.exit_boot_services gST ImageHandle (boot f) in
   forall pre r post,
     calls (snd res) = pre ++ ProbeCall r :: post ->
     reply_Status r <> EFI_BUFFER_TOO_SMALL ->
     post = [] /\ fst res = reply_Status r).
Proof.
  cbn zeta. split; intros pre r post E Hn.
  - destruct (get_memory_map_run gST args f)
      as [(_ & E0) | (h & R & Em & Es)].
    { rewrite E0 in E. now apply not_in_empty_trace in E. }
    destruct (map_run_after_probe _ _ _ _ R pre post r E Hn)
      as (-> & -> & ->).
    rewrite Em, Es. repeat split.
  - destruct (exit_boot_services_run gST ImageHandle f) as [E0 | R].
    { rewrite E0 in E. now apply not_in_empty_trace in E. }
    apply (exit_run_after_probe _ _ _ _ R pre post r E Hn).
Qed.

(** C10. When get_memory_map returns a status other than EFI_SUCCESS, the
    locations MemoryMap and MemoryMapSize point to hold what they held
    before the call (and a null pointer is still a null pointer). *)
Theorem get_memory_map_error_keeps_outputs
  (gST : option (EFI_SYSTEM_TABLE F)) (args : get_memory_map_c.OutParams)
  (f : F) :
  let res := get_memory_map_c.get_memory_map gST args (boot f) in
  fst (fst res) <> EFI_SUCCESS ->
  get_memory_map_c.MemoryMap (snd (fst res))
  = get_memory_map_c.MemoryMap args /\
  get_memory_map_c.MemoryMapSize (snd (fst res))
  = get_memory_map_c.MemoryMapSize args.
Proof.
  cbn zeta. intros Hs.
  destruct (get_memory_map_run gST args f) as [(Hn & _) | (h & R & Em & Es)].
  - destruct (get_memory_map_not_started gST args f Hn) as (_ & -> & _).
    split; reflexivity.
  - rewrite Em, Es. destruct h as [x|]; [|split; reflexivity].
    exfalso. apply Hs.
    apply (map_run_stores_on_success _ _ _ _ R). discriminate.
Qed.

(** C8. exit_boot_services with a null ImageHandle returns
    EFI_INVALID_PARAMETER and calls nothing; with a null system table or a
    null BootServices pointer, exit_boot_services and get_memory_map fail
    at once (EFI_NOT_READY when their arguments are valid) and call
    nothing: the trace of calls stays empty and the firmware state is
    untouched. *)
Theorem null_handle_or_unready_makes_no_call
  (gST : option (EFI_SYSTEM_TABLE F)) (ImageHandle : EFI_HANDLE)
  (args : get_memory_map_c.OutParams) (f : F) :
  (ImageHandle = NULL \/ not_ready gST ->
   let res :=
     exit_boot_services_c.exit_boot_services gST ImageHandle (boot f) in
   fst res = (if ImageHandle =? NULL then EFI_INVALID_PARAMETER
              else EFI_NOT_READY) /\
   calls (snd res) = [] /\
   firmware (snd res) = f) /\
  (not_ready gST ->
   let res := get_memory_map_c.get_memory_map gST args (boot f) in
   fst (fst res) = (if get_memory_map_c.any_null args
                    then EFI_INVALID_PARAMETER else EFI_NOT_READY) /\
   snd (fst res) = args /\
   calls (snd res) = [] /\
   firmware (snd res) = f).
Proof.
  split.
  - intros Hyp. apply exit_boot_services_not_started.
    destruct Hyp as [E | Hn]; [now left | right].
    now apply not_ready_spec.
  - intros Hn. apply get_memory_map_not_started. right.
    now apply not_ready_spec.
Qed.

(** C5 (as amended). When all 8 passes of get_memory_map fail on the fetch
    step, it returns EFI_DEVICE_ERROR, the status it also returns for a
    misaligned buffer: an error, different from EFI_SUCCESS, after exactly
    8 probes. *)
Theorem exhaustion_returns_device_error {L : uefi_status_laws}
  (gST : option (EFI_SYSTEM_TABLE F)) (args : get_memory_map_c.OutParams)
  (f : F) :
  let res := get_memory_map_c.get_memory_map gST args (boot f) in
  count is_failed_fetch (calls (snd res)) = 8%nat ->
  fst (fst res) = EFI_DEVICE_ERROR /\
  EFI_ERROR (fst (fst res)) = true /\
  fst (fst res) <> EFI_SUCCESS /\
  count is_probe (calls (snd res)) = 8%nat.
Proof.
  cbn zeta. intros Hn.
  destruct (get_memory_map_run gST args f) as [(_ & E) | (h & R & _ & _)].
  { rewrite E in Hn. discriminate. }
  destruct (map_run_all_failed _ _ _ _ R Hn) as (-> & _ & Hp & _).
  pose proof success_is_no_error as Hok.
  pose proof device_error_is_error as Hde.
  repeat split; trivial. congruence.
Qed.

(** C6 (as amended). When get_memory_map returns EFI_SUCCESS, and not
    because a probe answered EFI_SUCCESS, its last three calls are the
    probe, the allocation and the fetch of the final pass; the buffer was
    allocated with probedSize + 16 * descriptorSize bytes (in UINTN
    arithmetic), MemoryMap holds its address, and MemoryMapSize holds the
    size the fetch reported. *)
Theorem returned_size_is_fetched_size {L : uefi_status_laws}
  (gST : option (EFI_SYSTEM_TABLE F)) (args : get_memory_map_c.OutParams)
  (f : F) :
  let res := get_memory_map_c.get_memory_map gST args (boot f) in
  fst (fst res) = EFI_SUCCESS ->
  (forall r, In (ProbeCall r) (calls (snd res)) ->
             reply_Status r <> EFI_SUCCESS) ->
  exists pre r0 st sz b r,
    calls (snd res)
    = pre ++ [ProbeCall r0; AllocatePoolCall EfiLoaderData sz st b;
              FetchCall sz b r] /\
    sz = (reply_MemoryMapSize r0 + reply_DescriptorSize r0 * 16) mod 2 ^ 64
    /\
    get_memory_map_c.MemoryMap (snd (fst res)) = Some b /\
    get_memory_map_c.MemoryMapSize (snd (fst res))
    = Some (reply_MemoryMapSize r).
Proof.
  cbn zeta. intros Hs Hp.
  destruct (get_memory_map_run gST args f) as [(Hn & _) | (h & R & Em & Es)].
  { exfalso.
    destruct (get_memory_map_not_started gST args f Hn) as (E & _).
    rewrite Hs in E.
    pose proof success_is_no_error as Hok.
    pose proof invalid_parameter_is_error as Hip.
    pose proof not_ready_is_error as Hnr.
    destruct (get_memory_map_c.any_null args); congruence. }
  destruct (map_run_success_final_fetch _ _ _ _ R Hs Hp)
    as (sz & b & r & Ef).
  destruct (map_run_final_fetch _ _ _ _ _ _ _ R Ef)
    as (_ & -> & _ & _ & _ & _ & _ & pre & r0 & st & _ & Esz & Et).
  exists pre, r0, st, sz, b, r. rewrite Em, Es.
  repeat split; trivial.
  rewrite Esz. apply slack_size_spec.
Qed.

(** C7. get_memory_map allocates and releases in step: when its last call
    is a successful fetch into an aligned buffer, after N failed fetches,
    then N < 8, it made N + 1 allocations and N releases, and the one
    buffer left allocated is the one it returns; when 8 fetches failed, it
    made 8 allocations and 8 releases and no buffer is left allocated.
    Every release is of the buffer allocated and fetched into just before
    it, so the allocations are N + 1 separate buffers, none used twice. *)
Theorem allocations_and_releases_balance
  (gST : option (EFI_SYSTEM_TABLE F)) (args : get_memory_map_c.OutParams)
  (f : F) :
  let res := get_memory_map_c.get_memory_map gST args (boot f) in
  let t := calls (snd res) in
  let N := count is_failed_fetch t in
  (forall sz b r,
     final_call t = Some (FetchCall sz b r) ->
     EFI_ERROR (reply_Status r) = false ->
     b mod 8 = 0 ->
     (N < 8)%nat /\
     count is_allocation t = (N + 1)%nat /\
     count is_release t = N /\
     outstanding [] t = [b] /\
     get_memory_map_c.MemoryMap (snd (fst res)) = Some b /\
     fst (fst res) = EFI_SUCCESS) /\
  (N = 8%nat ->
     count is_allocation t = 8%nat /\
     count is_release t = 8%nat /\
     outstanding [] t = [] /\
     fst (fst res) = EFI_DEVICE_ERROR) /\
  (forall pre b post,
     t = pre ++ FreePoolCall b :: post ->
     exists pre' ty sz st r,
       pre = pre' ++ [AllocatePoolCall ty sz st b; FetchCall sz b r]).
Proof.
  cbn zeta.
  destruct (get_memory_map_run gST args f) as [(_ & E) | (h & R & Em & _)].
  { rewrite E. split; [|split].
    - intros sz b r Hf. discriminate.
    - intros Hn. discriminate.
    - intros pre b post Ht. now apply not_in_empty_trace in Ht. }
  split; [|split].
  - intros sz b r Hf _ _.
    destruct (map_run_final_fetch _ _ _ _ _ _ _ R Hf)
      as (Es & Eh & _ & _ & Hlt & Ha & Hr & _).
    rewrite (map_run_outstanding _ _ _ _ R), Em, Eh.
    repeat split; trivial; lia.
  - intros Hn.
    destruct (map_run_all_failed _ _ _ _ R Hn) as (Es & Eh & _ & Ha & Hr).
    rewrite (map_run_outstanding _ _ _ _ R), Eh. repeat split; trivial.
  - intros pre b post E.
    pose proof (map_run_each_call releases_fetched map_pass_releases
                  _ _ _ _ R []) as Hall.
    rewrite E in Hall. apply each_call_at in Hall. cbn in Hall.
    destruct (rev pre ++ []) as [|[] [|[] l]] eqn:Erev; try contradiction.
    destruct Hall as (-> & -> & ->).
    apply (rev_eq_app pre [_; _] l) in Erev. cbn in Erev.
    rewrite Erev. now eexists _, _, _, _, _.
Qed.

(** C3 (as amended). Every allocation comes right after a probe that
    answered "buffer too small", and its size is that probe's size plus
    16 descriptors of that probe's descriptor size in get_memory_map, plus
    8 descriptors in exit_boot_services, in 64-bit UINTN arithmetic. *)
Theorem allocation_size_follows_probe
  (gST : option (EFI_SYSTEM_TABLE F)) (args : get_memory_map_c.OutParams)
  (ImageHandle : EFI_HANDLE) (f : F) :
  (forall pre ty sz st b post,
     calls (snd (get_memory_map_c.get_memory_map gST args (boot f)))
     = pre ++ AllocatePoolCall ty sz st b :: post ->
     exists pre' r,
       pre = pre' ++ [ProbeCall r] /\
       reply_Status r = EFI_BUFFER_TOO_SMALL /\
       sz = (reply_MemoryMapSize r + reply_DescriptorSize r * 16)
            mod 2 ^ 64) /\
  (forall pre ty sz st b post,
     calls (snd (exit_boot_services_c.exit_boot_services gST ImageHandle
                   (boot f)))
     = pre ++ AllocatePoolCall ty sz st b :: post ->
     exists pre' r,
       pre = pre' ++ [ProbeCall r] /\
       reply_Status r = EFI_BUFFER_TOO_SMALL /\
       sz = (reply_MemoryMapSize r + reply_DescriptorSize r * 8)
            mod 2 ^ 64).
Proof.
  split; intros pre ty sz st b post E.
  - destruct (get_memory_map_run gST args f) as [(_ & E0) | (h & R & _ & _)].
    { rewrite E0 in E. now apply not_in_empty_trace in E. }
    pose proof (map_run_each_call _ map_pass_sized _ _ _ _ R []) as Hall.
    rewrite E in Hall. apply each_call_at in Hall. cbn in Hall.
    destruct (rev pre ++ []) as [|[] l] eqn:Erev; try contradiction.
    destruct Hall as (Hs & _ & ->).
    apply (rev_eq_app pre [_] l) in Erev. cbn in Erev.
    exists (rev l), reply. repeat split; trivial. apply slack_size_spec.
  - destruct (exit_boot_services_run gST ImageHandle f) as [E0 | R].
    { rewrite E0 in E. now apply not_in_empty_trace in E. }
    pose proof (exit_run_each_call _ _ (exit_pass_sized ImageHandle)
                  _ _ _ R []) as Hall.
    rewrite E in Hall. apply each_call_at in Hall. cbn in Hall.
    destruct (rev pre ++ []) as [|[] l] eqn:Erev; try contradiction.
    destruct Hall as (Hs & _ & ->).
    apply (rev_eq_app pre [_] l) in Erev. cbn in Erev.
    exists (rev l), reply. repeat split; trivial. apply slack_size_spec.
Qed.

(** C9. Every ExitBootServices call of exit_boot_services comes right
    after the probe, the allocation and the successful fetch of its own
    pass; it is given the image handle and the map key that fetch left,
    and the fetch was into the buffer that allocation returned. *)
Theorem handshake_uses_key_of_its_own_fetch
  (gST : option (EFI_SYSTEM_TABLE F)) (ImageHandle : EFI_HANDLE) (f : F) :
  forall pre h k st post,
    calls (snd (exit_boot_services_c.exit_boot_services gST ImageHandle
                  (boot f)))
    = pre ++ ExitBootServicesCall h k st :: post ->
    exists pre' r0 ty sz st' b r,
      pre = pre' ++ [ProbeCall r0; AllocatePoolCall ty sz st' b;
                     FetchCall sz b r] /\
      reply_Status r0 = EFI_BUFFER_TOO_SMALL /\
      EFI_ERROR st' = false /\
      EFI_ERROR (reply_Status r) = false /\
      k = reply_MapKey r /\
      h = ImageHandle.
Proof.
  intros pre h k st post E.
  destruct (exit_boot_services_run gST ImageHandle f) as [E0 | R].
  { rewrite E0 in E. now apply not_in_empty_trace in E. }
  pose proof (exit_run_each_call _ _ (exit_pass_fresh_key ImageHandle)
                _ _ _ R []) as Hall.
  rewrite E in Hall. apply each_call_at in Hall. cbn in Hall.
  destruct (rev pre ++ []) as [|[] [|[] [|[] l]]] eqn:Erev;
    try contradiction.
  destruct Hall as (-> & -> & Hf & -> & -> & Ha & Hp).
  apply (rev_eq_app pre [_; _; _] l) in Erev. cbn in Erev.
  rewrite Erev. eexists _, _, _, _, _, _, _. repeat split; trivial.
Qed.

(** C4 (as amended). In get_memory_map a successful fetch is followed by
    the alignment check: into an aligned buffer it is the last call, the
    function returns EFI_SUCCESS and hands the buffer over; into a buffer
    whose address is not a multiple of 8 it is followed by the release of
    that buffer and by nothing else, the function returns EFI_DEVICE_ERROR
    and stores nothing.  exit_boot_services has no alignment check: a
    successful fetch is followed by the handshake with the fetched key,
    whatever the address of the buffer. *)
Theorem alignment_is_checked_by_get_memory_map_only
  (gST : option (EFI_SYSTEM_TABLE F)) (args : get_memory_map_c.OutParams)
  (ImageHandle : EFI_HANDLE) (f : F) :
  (let res := get_memory_map_c.get_memory_map gST args (boot f) in
   forall pre sz b r post,
     calls (snd res) = pre ++ FetchCall sz b r :: post ->
     EFI_ERROR (reply_Status r) = false ->
     (b mod 8 = 0 ->
      post = [] /\
      fst (fst res) = EFI_SUCCESS /\
      get_memory_map_c.MemoryMap (snd (fst res)) = Some b /\
      get_memory_map_c.MemoryMapSize (snd (fst res))
      = Some (reply_MemoryMapSize r)) /\
     (b mod 8 <> 0 ->
      post = [FreePoolCall b] /\
      fst (fst res) = EFI_DEVICE_ERROR /\
      get_memory_map_c.MemoryMap (snd (fst res))
      = get_memory_map_c.MemoryMap args /\
      get_memory_map_c.MemoryMapSize (snd (fst res))
      = get_memory_map_c.MemoryMapSize args)) /\
  (forall pre sz b r post,
     calls (snd (exit_boot_services_c.exit_boot_services gST ImageHandle
                   (boot f)))
     = pre ++ FetchCall sz b r :: post ->
     EFI_ERROR (reply_Status r) = false ->
     exists st post',
       post = ExitBootServicesCall ImageHandle (reply_MapKey r) st :: post').
Proof.
  split.
  - cbn zeta. intros pre sz b r post E Hok.
    destruct (get_memory_map_run gST args f)
      as [(_ & E0) | (h & R & Em & Es)].
    { rewrite E0 in E. now apply not_in_empty_trace in E. }
    rewrite Em, Es.
    destruct (map_run_after_fetch _ _ _ _ R pre post sz b r E Hok)
      as [(Hal & -> & -> & ->) | (Hal & -> & -> & ->)].
    + apply aligned_spec in Hal. split; [now repeat split|].
      intros Hn. contradiction.
    + apply aligned_false in Hal. split; [|now repeat split].
      intros Hn. contradiction.
  - intros pre sz b r post E Hok.
    destruct (exit_boot_services_run gST ImageHandle f) as [E0 | R].
    { rewrite E0 in E. now apply not_in_empty_trace in E. }
    apply (exit_run_after_fetch _ _ _ _ R pre post sz b r E Hok).
Qed.

(** C1 (as amended). exit_boot_services with a non-null image handle and
    a ready environment, when no probe and no allocation fails and every
    handshake it attempts returns a status other than EFI_SUCCESS: the
    calls are exactly those of 8 passes, with nothing after the 8th, and
    the function returns EFI_ABORTED.  When also every fetch succeeds, so
    that every pass reaches its handshake, the 8 passes are 8 refused
    handshakes, each of probe, allocation, fetch, handshake and release:
    40 calls. *)
Theorem stale_key_on_every_attempt_aborts
  (gST : option (EFI_SYSTEM_TABLE F)) (BS : EFI_BOOT_SERVICES F)
  (ImageHandle : EFI_HANDLE) (f : F) :
  boot_services gST = Some BS ->
  ImageHandle <> NULL ->
  let res :=
    exit_boot_services_c.exit_boot_services gST ImageHandle (boot f) in
  let t := calls (snd res) in
  (forall r, In (ProbeCall r) t -> reply_Status r = EFI_BUFFER_TOO_SMALL) ->
  (forall ty sz st b, In (AllocatePoolCall ty sz st b) t ->
                      EFI_ERROR st = false) ->
  (forall h k st, In (ExitBootServicesCall h k st) t ->
                  st <> EFI_SUCCESS) ->
  fst res = EFI_ABORTED /\
  count is_probe t = 8%nat /\
  (exists passes,
     t = List.concat passes /\
     List.length passes = 8%nat /\
     Forall (fun p => exit_pass ImageHandle p Fallthrough) passes) /\
  ((forall sz b r, In (FetchCall sz b r) t ->
                   EFI_ERROR (reply_Status r) = false) ->
   count is_handshake t = 8%nat /\
   List.length t = 40%nat /\
   exists passes,
     t = List.concat passes /\
     List.length passes = 8%nat /\
     Forall (stale_pass ImageHandle) passes).
Proof.
  intros HBS Hh.
  pose proof (exit_boot_services_sound gST BS ImageHandle f HBS Hh) as R.
  cbn zeta in *. intros Hprobe Halloc Hexit.
  destruct (exit_run_never_returns _ _ _ _ R Hprobe Halloc Hexit)
    as (Es & Ep & Hpasses).
  split; [exact Es|]. split; [exact Ep|]. split; [exact Hpasses|].
  intros Hfetch.
  destruct (exit_run_all_stale _ _ _ _ R Hprobe Halloc Hfetch Hexit)
    as (_ & passes & Et & El & Hall).
  destruct (stale_passes_count _ _ Hall) as (Ch & Cp & Cl).
  rewrite Et, Ch, Cl, El. repeat split. now exists passes.
Qed.

End Claims.

(** ** The claims on the scripted firmware *)

(** C2. A probe that answers EFI_SUCCESS makes both functions return
    EFI_SUCCESS after that one call: get_memory_map without having stored
    a map (MemoryMap and MemoryMapSize hold what they held), and
    exit_boot_services without having called ExitBootServices.  Nothing is
    allocated and nothing is retried, but the anomaly reaches the caller as
    success. *)
Theorem probe_success_is_returned_as_success :
  let gST := ready (with_probe_status (@EFI_SUCCESS uefi64) example_script) in
  let answer :=
    {| reply_Status := @EFI_SUCCESS uefi64; reply_MemoryMapSize := 4096;
       reply_DescriptorSize := 48; reply_DescriptorVersion := 1;
       reply_MapKey := 0xCC |} in
  let answer' :=
    {| reply_Status := @EFI_SUCCESS uefi64; reply_MemoryMapSize := 4096;
       reply_DescriptorSize := 48; reply_DescriptorVersion := 1;
       reply_MapKey := 0 |} in
  let got :=
    @get_memory_map_c.get_memory_map uefi64 Seen gST caller_locations
      (boot nothing_seen) in
  let left :=
    @exit_boot_services_c.exit_boot_services uefi64 Seen gST an_image
      (boot nothing_seen) in
  fst (fst got) = @EFI_SUCCESS uefi64 /\
  calls (snd got) = [ProbeCall answer] /\
  get_memory_map_c.MemoryMap (snd (fst got)) = Some 0xAA /\
  get_memory_map_c.MemoryMapSize (snd (fst got)) = Some 0xBB /\
  fst left = @EFI_SUCCESS uefi64 /\
  calls (snd left) = [ProbeCall answer'].
Proof.
  vm_compute. repeat split.
Qed.

(** C3, counterexample.  On the firmware of the specification's example,
    whose probe reports 4096 bytes and 48-byte descriptors,
    exit_boot_services allocates 4096 + 48 * 8 = 4480 bytes, not
    4096 + 48 * 16 = 4864. *)
Lemma exit_boot_services_adds_8_descriptors :
  exists r st b post,
    calls (snd (@exit_boot_services_c.exit_boot_services uefi64 Seen
                  (ready example_script) an_image (boot nothing_seen)))
    = ProbeCall r :: AllocatePoolCall 2 4480 st b :: post /\
    reply_MemoryMapSize r = 4096 /\
    reply_DescriptorSize r = 48 /\
    4480 <> reply_MemoryMapSize r + reply_DescriptorSize r * 16.
Proof.
  vm_compute. eexists _, _, _, _. repeat split. discriminate.
Qed.

(** C4, counterexample.  With a buffer at the odd address 0x100001,
    exit_boot_services goes on to the handshake after the successful
    fetch, releases nothing and returns EFI_SUCCESS. *)
Lemma exit_boot_services_ignores_alignment :
  let res :=
    @exit_boot_services_c.exit_boot_services uefi64 Seen
      (ready (with_pool_base 0x100001 example_script)) an_image
      (boot nothing_seen) in
  calls (snd res)
  = [ProbeCall (example_probe 0);
     AllocatePoolCall 2 4480 (@EFI_SUCCESS uefi64) 0x100001;
     FetchCall 4480 0x100001 example_fetch;
     ExitBootServicesCall an_image 0x1122 (@EFI_SUCCESS uefi64)] /\
  @EFI_ERROR uefi64 (reply_Status example_fetch) = false /\
  0x100001 mod 8 = 1 /\
  count is_release (calls (snd res)) = 0%nat /\
  fst res = @EFI_SUCCESS uefi64.
Proof.
  vm_compute. repeat split.
Qed.

(** C5, counterexample.  A run of get_memory_map whose 8 fetches all fail
    and a run stopped by a misaligned buffer return the same status. *)
Lemma exhaustion_and_misalignment_share_a_status :
  let exhausted :=
    @get_memory_map_c.get_memory_map uefi64 Seen
      (ready (with_fetch_failures 8 example_script)) caller_locations
      (boot nothing_seen) in
  let misaligned :=
    @get_memory_map_c.get_memory_map uefi64 Seen
      (ready (with_pool_base 0x100001 example_script)) caller_locations
      (boot nothing_seen) in
  count (@is_failed_fetch uefi64) (calls (snd exhausted)) = 8%nat /\
  count is_probe (calls (snd exhausted)) = 8%nat /\
  calls (snd misaligned)
  = [ProbeCall (example_probe 0xCC);
     AllocatePoolCall 2 4864 (@EFI_SUCCESS uefi64) 0x100001;
     FetchCall 4864 0x100001 example_fetch;
     FreePoolCall 0x100001] /\
  fst (fst exhausted) = fst (fst misaligned).
Proof.
  vm_compute. repeat split.
Qed.

(** C6, counterexample.  The example trace of the specification: the probe
    reports 4096 bytes and 48-byte descriptors, the fetch reports 4200
    bytes; get_memory_map returns EFI_SUCCESS with MemoryMapSize 4200,
    which is less than 4096 + 16 * 48 = 4864. *)
Lemma returned_size_below_probed_size_plus_slack :
  let res :=
    @get_memory_map_c.get_memory_map uefi64 Seen (ready example_script)
      caller_locations (boot nothing_seen) in
  exists r a c sz,
    fst (fst res) = @EFI_SUCCESS uefi64 /\
    calls (snd res) = [ProbeCall r; a; c] /\
    reply_MemoryMapSize r = 4096 /\
    reply_DescriptorSize r = 48 /\
    get_memory_map_c.MemoryMapSize (snd (fst res)) = Some sz /\
    sz = 4200 /\
    sz < reply_MemoryMapSize r + 16 * reply_DescriptorSize r.
Proof.
  vm_compute. eexists _, _, _, _. repeat split.
Qed.

(** ** The theorems at concrete inputs *)

(** Settles a statement about every call of a computed trace. *)
Ltac check_calls :=
  vm_compute; intros;
  repeat match goal with
  | Hin : _ \/ _ |- _ => destruct Hin as [Hin | Hin]
  end;
  match goal with
  | Hin : False |- _ => contradiction
  | Hin : _ = _ |- _ =>
      try discriminate Hin; inversion Hin; subst;
      try reflexivity; discriminate
  end.

(** C1, counterexample.  A valid image handle, a ready firmware that
    refuses every handshake, and a pool that gives out one buffer only:
    the first handshake is refused, the allocation of the second pass
    fails, and exit_boot_services returns EFI_OUT_OF_RESOURCES after 2
    probes and 1 handshake, not EFI_ABORTED after 8 attempts. *)
Lemma refused_handshake_then_failed_allocation :
  let res :=
    @exit_boot_services_c.exit_boot_services uefi64 Seen
      (Some {| BootServices :=
                 Some (memory_runs_out 1
                         (with_stale_handshakes 8 example_script)) |})
      an_image (boot nothing_seen) in
  an_image <> NULL /\
  calls (snd res)
  = [ProbeCall (example_probe 0);
     AllocatePoolCall 2 4480 (@EFI_SUCCESS uefi64) 0x100000;
     FetchCall 4480 0x100000 example_fetch;
     ExitBootServicesCall an_image 0x1122 (@EFI_INVALID_PARAMETER uefi64);
     FreePoolCall 0x100000;
     ProbeCall (example_probe 0x1122);
     AllocatePoolCall 2 4480 (EFIERR 9) NULL] /\
  (forall h k st,
     In (ExitBootServicesCall h k st) (calls (snd res)) ->
     st <> @EFI_SUCCESS uefi64) /\
  count is_handshake (calls (snd res)) = 1%nat /\
  count is_probe (calls (snd res)) = 2%nat /\
  fst res = EFIERR 9 /\
  fst res <> @EFI_ABORTED uefi64.
Proof.
  split; [discriminate|].
  split; [vm_compute; reflexivity|].
  split; [check_calls|].
  vm_compute. repeat split. discriminate.
Qed.

(** C1 at a firmware that refuses 8 handshakes and would accept the
    9th. *)
Lemma stale_key_on_every_attempt_aborts_witness :
  let res :=
    @exit_boot_services_c.exit_boot_services uefi64 Seen
      (ready (with_stale_handshakes 8 example_script)) an_image
      (boot nothing_seen) in
  let t := calls (snd res) in
  fst res = @EFI_ABORTED uefi64 /\
  count is_probe t = 8%nat /\
  count is_handshake t = 8%nat /\
  List.length t = 40%nat /\
  exists passes,
    t = List.concat passes /\
    List.length passes = 8%nat /\
    Forall (@stale_pass uefi64 an_image) passes.
Proof.
  destruct (@stale_key_on_every_attempt_aborts uefi64 Seen
              (ready (with_stale_handshakes 8 example_script))
              (scripted (with_stale_handshakes 8 example_script))
              an_image nothing_seen)
    as (Ws & Wp & _ & Wf).
  - reflexivity.
  - discriminate.
  - check_calls.
  - check_calls.
  - check_calls.
  - destruct Wf as (Wh & Wl & Wpasses); [check_calls|].
    exact (conj Ws (conj Wp (conj Wh (conj Wl Wpasses)))).
Defined.

(** C3 at the example firmware: the allocation of get_memory_map asks for
    4864 bytes, that of exit_boot_services for 4480. *)
Lemma allocation_size_follows_probe_witness :
  (exists pre' r,
     [ProbeCall (example_probe 0xCC)] = pre' ++ [ProbeCall r] /\
     reply_Status r = @EFI_BUFFER_TOO_SMALL uefi64 /\
     4864 = (reply_MemoryMapSize r + reply_DescriptorSize r * 16)
            mod 2 ^ 64) /\
  (exists pre' r,
     [ProbeCall (example_probe 0)] = pre' ++ [ProbeCall r] /\
     reply_Status r = @EFI_BUFFER_TOO_SMALL uefi64 /\
     4480 = (reply_MemoryMapSize r + reply_DescriptorSize r * 8)
            mod 2 ^ 64).
Proof.
  destruct (@allocation_size_follows_probe uefi64 Seen
              (ready example_script) caller_locations an_image
              nothing_seen)
    as [Wm We].
  split.
  - apply (Wm [ProbeCall (example_probe 0xCC)] 2 4864 0 0x100000
              [FetchCall 4864 0x100000 example_fetch]).
    reflexivity.
  - apply (We [ProbeCall (example_probe 0)] 2 4480 0 0x100000
              [FetchCall 4480 0x100000 example_fetch;
               ExitBootServicesCall an_image 0x1122 0]).
    reflexivity.
Defined.

(** C4 at the example firmware, with its buffer at 0x100000 and at
    0x100001. *)
Lemma alignment_is_checked_by_get_memory_map_only_witness :
  (let res :=
     @get_memory_map_c.get_memory_map uefi64 Seen (ready example_script)
       caller_locations (boot nothing_seen) in
   fst (fst res) = @EFI_SUCCESS uefi64 /\
   get_memory_map_c.MemoryMap (snd (fst res)) = Some 0x100000 /\
   get_memory_map_c.MemoryMapSize (snd (fst res)) = Some 4200) /\
  (let res :=
     @get_memory_map_c.get_memory_map uefi64 Seen
       (ready (with_pool_base 0x100001 example_script)) caller_locations
       (boot nothing_seen) in
   fst (fst res) = @EFI_DEVICE_ERROR uefi64 /\
   get_memory_map_c.MemoryMap (snd (fst res)) = Some 0xAA /\
   get_memory_map_c.MemoryMapSize (snd (fst res)) = Some 0xBB) /\
  (exists st post',
     [ExitBootServicesCall an_image 0x1122 0]
     = ExitBootServicesCall an_image (reply_MapKey example_fetch) st
       :: post').
Proof.
  split; [|split].
  - destruct (@alignment_is_checked_by_get_memory_map_only uefi64 Seen
                (ready example_script) caller_locations an_image
                nothing_seen)
      as [Wm _].
    destruct (Wm [ProbeCall (example_probe 0xCC);
                  AllocatePoolCall 2 4864 0 0x100000]
                 4864 0x100000 example_fetch [])
      as [Wa _]; [reflexivity | reflexivity |].
    destruct Wa as (_ & Ws & Wp & Wz); [reflexivity|].
    exact (conj Ws (conj Wp Wz)).
  - destruct (@alignment_is_checked_by_get_memory_map_only uefi64 Seen
                (ready (with_pool_base 0x100001 example_script))
                caller_locations an_image nothing_seen)
      as [Wm _].
    destruct (Wm [ProbeCall (example_probe 0xCC);
                  AllocatePoolCall 2 4864 0 0x100001]
                 4864 0x100001 example_fetch [FreePoolCall 0x100001])
      as [_ Wa]; [reflexivity | reflexivity |].
    destruct Wa as (_ & Ws & Wp & Wz); [discriminate|].
    exact (conj Ws (conj Wp Wz)).
  - destruct (@alignment_is_checked_by_get_memory_map_only uefi64 Seen
                (ready (with_pool_base 0x100001 example_script))
                caller_locations an_image nothing_seen)
      as [_ We].
    apply (We [ProbeCall (example_probe 0);
               AllocatePoolCall 2 4480 0 0x100001]
              4480 0x100001 example_fetch
              [ExitBootServicesCall an_image 0x1122 0]);
      reflexivity.
Defined.

(** C5 at a firmware whose first 8 fetches fail. *)
Lemma exhaustion_returns_device_error_witness :
  let res :=
    @get_memory_map_c.get_memory_map uefi64 Seen
      (ready (with_fetch_failures 8 example_script)) caller_locations
      (boot nothing_seen) in
  fst (fst res) = @EFI_DEVICE_ERROR uefi64 /\
  @EFI_ERROR uefi64 (fst (fst res)) = true /\
  fst (fst res) <> @EFI_SUCCESS uefi64 /\
  count is_probe (calls (snd res)) = 8%nat.
Proof.
  apply (@exhaustion_returns_device_error uefi64 Seen uefi64_laws
           (ready (with_fetch_failures 8 example_script))
           caller_locations nothing_seen).
  vm_compute. reflexivity.
Defined.

(** C6 at the example firmware: 4864 bytes allocated, 4200 returned. *)
Lemma returned_size_is_fetched_size_witness :
  let res :=
    @get_memory_map_c.get_memory_map uefi64 Seen (ready example_script)
      caller_locations (boot nothing_seen) in
  exists pre r0 st sz b r,
    calls (snd res)
    = pre ++ [ProbeCall r0; AllocatePoolCall (@EfiLoaderData uefi64) sz st b;
              FetchCall sz b r] /\
    sz = (reply_MemoryMapSize r0 + reply_DescriptorSize r0 * 16) mod 2 ^ 64
    /\
    get_memory_map_c.MemoryMap (snd (fst res)) = Some b /\
    get_memory_map_c.MemoryMapSize (snd (fst res))
    = Some (reply_MemoryMapSize r).
Proof.
  apply (@returned_size_is_fetched_size uefi64 Seen uefi64_laws
           (ready example_script) caller_locations nothing_seen).
  - reflexivity.
  - check_calls.
Defined.

(** C7 at a firmware whose first 3 fetches fail, and at one whose first 8
    fetches fail. *)
Lemma allocations_and_releases_balance_witness :
  (let res :=
     @get_memory_map_c.get_memory_map uefi64 Seen
       (ready (with_fetch_failures 3 example_script)) caller_locations
       (boot nothing_seen) in
   let t := calls (snd res) in
   let N := count (@is_failed_fetch uefi64) t in
   N = 3%nat /\
   (N < 8)%nat /\
   count is_allocation t = (N + 1)%nat /\
   count is_release t = N /\
   @outstanding uefi64 [] t = [0x103000] /\
   get_memory_map_c.MemoryMap (snd (fst res)) = Some 0x103000 /\
   fst (fst res) = @EFI_SUCCESS uefi64) /\
  (let res :=
     @get_memory_map_c.get_memory_map uefi64 Seen
       (ready (with_fetch_failures 8 example_script)) caller_locations
       (boot nothing_seen) in
   let t := calls (snd res) in
   count is_allocation t = 8%nat /\
   count is_release t = 8%nat /\
   @outstanding uefi64 [] t = [] /\
   fst (fst res) = @EFI_DEVICE_ERROR uefi64) /\
  (exists pre' ty sz st r,
     [ProbeCall (example_probe 0xCC); AllocatePoolCall 2 4864 0 0x100000;
      FetchCall 4864 0x100000
        {| reply_Status := @EFI_BUFFER_TOO_SMALL uefi64;
           reply_MemoryMapSize := 4864 + 48 * 32; reply_MapKey := 0xCC;
           reply_DescriptorSize := 48; reply_DescriptorVersion := 1 |}]
     = pre' ++ [AllocatePoolCall ty sz st 0x100000;
                FetchCall sz 0x100000 r]).
Proof.
  split; [|split].
  - destruct (@allocations_and_releases_balance uefi64 Seen
                (ready (with_fetch_failures 3 example_script))
                caller_locations nothing_seen)
      as (Wa & _ & _).
    split; [vm_compute; reflexivity|].
    apply (Wa 4864 0x103000
              {| reply_Status := @EFI_SUCCESS uefi64;
                 reply_MemoryMapSize := 4200; reply_MapKey := 0x1125;
                 reply_DescriptorSize := 48;
                 reply_DescriptorVersion := 1 |});
      vm_compute; reflexivity.
  - destruct (@allocations_and_releases_balance uefi64 Seen
                (ready (with_fetch_failures 8 example_script))
                caller_locations nothing_seen)
      as (_ & Wb & _).
    apply Wb. vm_compute. reflexivity.
  - destruct (@allocations_and_releases_balance uefi64 Seen
                (ready (with_fetch_failures 8 example_script))
                caller_locations nothing_seen)
      as (_ & _ & Wc).
    eapply (Wc _ 0x100000). vm_compute. reflexivity.
Defined.

(** C8 with a null image handle on a ready firmware, and with a null
    BootServices pointer and a null system table. *)
Lemma null_handle_or_unready_makes_no_call_witness :
  (let res :=
     @exit_boot_services_c.exit_boot_services uefi64 Seen
       (ready example_script) NULL (boot nothing_seen) in
   fst res = @EFI_INVALID_PARAMETER uefi64 /\
   calls (snd res) = [] /\
   firmware (snd res) = nothing_seen) /\
  (let res :=
     @exit_boot_services_c.exit_boot_services uefi64 Seen
       (Some {| BootServices := None |}) an_image (boot nothing_seen) in
   fst res = @EFI_NOT_READY uefi64 /\
   calls (snd res) = [] /\
   firmware (snd res) = nothing_seen) /\
  (let res :=
     @get_memory_map_c.get_memory_map uefi64 Seen None caller_locations
       (boot nothing_seen) in
   fst (fst res) = @EFI_NOT_READY uefi64 /\
   snd (fst res) = caller_locations /\
   calls (snd res) = [] /\
   firmware (snd res) = nothing_seen).
Proof.
  split; [|split].
  - apply (proj1 (@null_handle_or_unready_makes_no_call uefi64 Seen
                    (ready example_script) NULL caller_locations
                    nothing_seen)).
    left. reflexivity.
  - apply (proj1 (@null_handle_or_unready_makes_no_call uefi64 Seen
                    (Some {| BootServices := None |}) an_image
                    caller_locations nothing_seen)).
    right. right. eexists. split; reflexivity.
  - apply (proj2 (@null_handle_or_unready_makes_no_call uefi64 Seen
                    None NULL caller_locations nothing_seen)).
    left. reflexivity.
Defined.

(** C9 at the example firmware: the one handshake is given key 0x1122,
    the key of the fetch just before it. *)
Lemma handshake_uses_key_of_its_own_fetch_witness :
  exists pre' r0 ty sz st' b r,
    [ProbeCall (example_probe 0); AllocatePoolCall 2 4480 0 0x100000;
     FetchCall 4480 0x100000 example_fetch]
    = pre' ++ [ProbeCall r0; AllocatePoolCall ty sz st' b;
               FetchCall sz b r] /\
    reply_Status r0 = @EFI_BUFFER_TOO_SMALL uefi64 /\
    @EFI_ERROR uefi64 st' = false /\
    @EFI_ERROR uefi64 (reply_Status r) = false /\
    0x1122 = reply_MapKey r /\
    an_image = an_image.
Proof.
  apply (@handshake_uses_key_of_its_own_fetch uefi64 Seen
           (ready example_script) an_image nothing_seen)
    with (st := 0) (post := []).
  reflexivity.
Defined.

(** C10 at a firmware whose buffer is misaligned: EFI_DEVICE_ERROR, and
    the two locations still hold 0xAA and 0xBB. *)
Lemma get_memory_map_error_keeps_outputs_witness :
  let res :=
    @get_memory_map_c.get_memory_map uefi64 Seen
      (ready (with_pool_base 0x100001 example_script)) caller_locations
      (boot nothing_seen) in
  fst (fst res) = @EFI_DEVICE_ERROR uefi64 /\
  get_memory_map_c.MemoryMap (snd (fst res)) = Some 0xAA /\
  get_memory_map_c.MemoryMapSize (snd (fst res)) = Some 0xBB.
Proof.
  split; [reflexivity|].
  apply (@get_memory_map_error_keeps_outputs uefi64 Seen
           (ready (with_pool_base 0x100001 example_script)) caller_locations
           nothing_seen).
  vm_compute. discriminate.
Defined.

(** * More of what the two functions do *)

(** ** More facts about runs *)

Section MoreRuns.
Context `{uefi_headers}.

Ltac invert_pass :=
  repeat match goal with
  | P : map_pass _ _ _ |- _ => inversion P; subst; clear P
  | P : exit_pass _ _ _ |- _ => inversion P; subst; clear P
  | A : acquisition _ _ _ |- _ => inversion A; subst; clear A
  end.

Ltac locate E pre :=
  destruct pre as [|? [|? [|? [|? [|? pre]]]]]; cbn in E;
  inversion E; subst; clear E;
  try match goal with
      | E' : [] = ?l ++ _ :: _ |- _ => destruct l; discriminate E'
      end.

Ltac use_status :=
  repeat match goal with
  | E : EFI_ERROR _ = _ |- _ => rewrite E in *; clear E
  end.

Lemma last_reply_app (t t' : list Call) :
  last_reply (t ++ t')
  = match last_reply t' with
    | Some r => Some r
    | None => last_reply t
    end.
Proof.
  induction t as [|c t IH]; cbn.
  - now destruct (last_reply t').
  - rewrite IH. now destruct (last_reply t').
Qed.

(** *** A failed allocation ends the run *)

Lemma map_pass_after_failed_allocation (t : list Call) (fl : Flow)
  (h : option (pointer * UINTN)) (pre post : list Call) (ty : Z)
  (sz : UINTN) (st : EFI_STATUS) (b : pointer) :
  map_pass t fl h ->
  t = pre ++ AllocatePoolCall ty sz st b :: post ->
  EFI_ERROR st = true ->
  post = [] /\ fl = Returned st /\ h = None.
Proof.
  intros P. invert_pass; intros E He; locate E pre; try congruence.
  repeat split.
Qed.

Lemma map_run_after_failed_allocation (left : nat) (t : list Call)
  (s : EFI_STATUS) (h : option (pointer * UINTN)) :
  map_run left t s h ->
  forall pre post ty sz st b,
  t = pre ++ AllocatePoolCall ty sz st b :: post ->
  EFI_ERROR st = true ->
  post = [] /\ s = st /\ h = None.
Proof.
  induction 1 as [|left t s h P|left t t' s h P R IH];
    intros pre post ty sz st b E He.
  - destruct pre; discriminate.
  - destruct (map_pass_after_failed_allocation _ _ _ _ _ _ _ _ _ P E He)
      as (? & Efl & ?).
    inversion Efl. repeat split; trivial.
  - apply app_split_cases in E.
    destruct E as [(x & E & _) | (x & _ & E)].
    + destruct (map_pass_after_failed_allocation _ _ _ _ _ _ _ _ _ P E He)
        as (_ & Efl & _).
      discriminate.
    + now apply (IH x post ty sz st b).
Qed.

Lemma exit_pass_after_failed_allocation (ImageHandle : EFI_HANDLE)
  (t : list Call) (fl : Flow) (pre post : list Call) (ty : Z) (sz : UINTN)
  (st : EFI_STATUS) (b : pointer) :
  exit_pass ImageHandle t fl ->
  t = pre ++ AllocatePoolCall ty sz st b :: post ->
  EFI_ERROR st = true ->
  post = [] /\ fl = Returned st.
Proof.
  intros P. invert_pass; intros E He; locate E pre; try congruence.
  repeat split.
Qed.

Lemma exit_run_after_failed_allocation (ImageHandle : EFI_HANDLE)
  (left : nat) (t : list Call) (s : EFI_STATUS) :
  exit_run ImageHandle left t s ->
  forall pre post ty sz st b,
  t = pre ++ AllocatePoolCall ty sz st b :: post ->
  EFI_ERROR st = true ->
  post = [] /\ s = st.
Proof.
  induction 1 as [|left t s P|left t t' s P R IH];
    intros pre post ty sz st b E He.
  - destruct pre; discriminate.
  - destruct (exit_pass_after_failed_allocation _ _ _ _ _ _ _ _ _ P E He)
      as (? & Efl).
    inversion Efl. repeat split; trivial.
  - apply app_split_cases in E.
    destruct E as [(x & E & _) | (x & _ & E)].
    + destruct (exit_pass_after_failed_allocation _ _ _ _ _ _ _ _ _ P E He)
        as (_ & Efl).
      discriminate.
    + now apply (IH x post ty sz st b).
Qed.

(** *** What follows a handshake *)

Lemma exit_pass_after_handshake (ImageHandle : EFI_HANDLE) (t : list Call)
  (fl : Flow) (pre post : list Call) (h : EFI_HANDLE) (k : UINTN)
  (st : EFI_STATUS) :
  exit_pass ImageHandle t fl ->
  t = pre ++ ExitBootServicesCall h k st :: post ->
  (st = EFI_SUCCESS /\ post = [] /\ fl = Returned EFI_SUCCESS) \/
  (st <> EFI_SUCCESS /\ fl = Fallthrough /\
   exists pre' sz b r,
     pre = pre' ++ [FetchCall sz b r] /\ post = [FreePoolCall b]).
Proof.
  intros P. invert_pass; intros E; locate E pre.
  - left. repeat split.
  - right. repeat split; trivial.
    eexists [_; _], _, _, _. split; reflexivity.
Qed.

Lemma exit_run_after_handshake (ImageHandle : EFI_HANDLE) (left : nat)
  (t : list Call) (s : EFI_STATUS) :
  exit_run ImageHandle left t s ->
  forall pre post h k st,
  t = pre ++ ExitBootServicesCall h k st :: post ->
  (st = EFI_SUCCESS /\ post = [] /\ s = EFI_SUCCESS) \/
  (st <> EFI_SUCCESS /\
   exists pre' sz b r post',
     pre = pre' ++ [FetchCall sz b r] /\ post = FreePoolCall b :: post').
Proof.
  induction 1 as [|left t s P|left t t' s P R IH];
    intros pre post h k st E.
  - destruct pre; discriminate.
  - destruct (exit_pass_after_handshake _ _ _ _ _ _ _ _ P E)
      as [(? & ? & Efl) | (_ & Efl & _)]; [|discriminate].
    inversion Efl. left. repeat split; trivial.
  - apply app_split_cases in E.
    destruct E as [(x & E & ->) | (x & -> & E)].
    + destruct (exit_pass_after_handshake _ _ _ _ _ _ _ _ P E)
        as [(_ & _ & Efl) | (Hs & _ & pre' & sz & b & r & -> & ->)];
        [discriminate|].
      right. split; trivial. now exists pre', sz, b, r, t'.
    + destruct (IH x post h k st E)
        as [? | (Hs & pre' & sz & b & r & post' & -> & ->)]; [now left|].
      right. split; trivial.
      exists (t ++ pre'), sz, b, r, post'. now rewrite app_assoc.
Qed.

(** *** Buffers exit_boot_services leaves allocated *)

Lemma exit_pass_fallthrough_outstanding (ImageHandle : EFI_HANDLE)
  (t : list Call) :
  exit_pass ImageHandle t Fallthrough -> outstanding [] t = [].
Proof.
  intros P. invert_pass; cbn; use_status; cbn; now rewrite Z.eqb_refl.
Qed.

Lemma exit_pass_returned_outstanding (ImageHandle : EFI_HANDLE)
  (t : list Call) (s : EFI_STATUS) :
  exit_pass ImageHandle t (Returned s) ->
  outstanding [] t = [] \/
  exists pre sz b r k,
    t = pre ++ [FetchCall sz b r;
                ExitBootServicesCall ImageHandle k EFI_SUCCESS] /\
    outstanding [] t = [b] /\ s = EFI_SUCCESS.
Proof.
  intros P. invert_pass; cbn; use_status; cbn; try (now left).
  right. eexists [_; _], _, _, _, _. repeat split.
Qed.

Lemma exit_run_outstanding (ImageHandle : EFI_HANDLE) (left : nat)
  (t : list Call) (s : EFI_STATUS) :
  exit_run ImageHandle left t s ->
  outstanding [] t = [] \/
  exists pre sz b r k,
    t = pre ++ [FetchCall sz b r;
                ExitBootServicesCall ImageHandle k EFI_SUCCESS] /\
    outstanding [] t = [b] /\ s = EFI_SUCCESS.
Proof.
  induction 1 as [|left t s P|left t t' s P R IH].
  - now left.
  - now apply exit_pass_returned_outstanding.
  - rewrite outstanding_app, (exit_pass_fallthrough_outstanding _ _ P).
    destruct IH as [E | (pre & sz & b & r & k & -> & E & Es)]; [now left|].
    right. exists (t ++ pre), sz, b, r, k. now rewrite app_assoc.
Qed.

(** *** How many calls a run makes *)

Lemma map_pass_size (t : list Call) (fl : Flow)
  (h : option (pointer * UINTN)) :
  map_pass t fl h ->
  (count is_probe t = 1 /\ count is_allocation t <= 1 /\
   count is_fetch t <= 1 /\ count is_release t <= 1 /\
   List.length t <= 4)%nat.
Proof.
  intros P. invert_pass; unfold count; cbn; lia.
Qed.

Lemma map_run_size (left : nat) (t : list Call) (s : EFI_STATUS)
  (h : option (pointer * UINTN)) :
  map_run left t s h ->
  (count is_probe t <= left /\ count is_allocation t <= left /\
   count is_fetch t <= left /\ count is_release t <= left /\
   List.length t <= 4 * left)%nat.
Proof.
  induction 1 as [|left t s h P|left t t' s h P R IH].
  - cbn. lia.
  - pose proof (map_pass_size _ _ _ P). lia.
  - pose proof (map_pass_size _ _ _ P).
    rewrite !count_app, length_app. lia.
Qed.

Lemma exit_pass_size (ImageHandle : EFI_HANDLE) (t : list Call)
  (fl : Flow) :
  exit_pass ImageHandle t fl ->
  (count is_probe t = 1 /\ count is_allocation t <= 1 /\
   count is_fetch t <= 1 /\ count is_handshake t <= 1 /\
   count is_release t <= 1 /\ List.length t <= 5)%nat.
Proof.
  intros P. invert_pass; unfold count; cbn; lia.
Qed.

Lemma exit_run_size (ImageHandle : EFI_HANDLE) (left : nat) (t : list Call)
  (s : EFI_STATUS) :
  exit_run ImageHandle left t s ->
  (count is_probe t <= left /\ count is_allocation t <= left /\
   count is_fetch t <= left /\ count is_handshake t <= left /\
   count is_release t <= left /\ List.length t <= 5 * left)%nat.
Proof.
  induction 1 as [|left t s P|left t t' s P R IH].
  - cbn. lia.
  - pose proof (exit_pass_size _ _ _ P). lia.
  - pose proof (exit_pass_size _ _ _ P).
    rewrite !count_app, length_app. lia.
Qed.

(** *** A pass starts with nothing allocated *)

Lemma map_pass_probe_first (t : list Call) (fl : Flow)
  (h : option (pointer * UINTN)) (pre post : list Call)
  (r : MemoryMapReply) :
  map_pass t fl h -> t = pre ++ ProbeCall r :: post -> pre = [].
Proof.
  intros P. invert_pass; intros E; locate E pre; reflexivity.
Qed.

Lemma map_run_probe_outstanding (left : nat) (t : list Call)
  (s : EFI_STATUS) (h : option (pointer * UINTN)) :
  map_run left t s h ->
  forall pre post r,
  t = pre ++ ProbeCall r :: post -> outstanding [] pre = [].
Proof.
  induction 1 as [|left t s h P|left t t' s h P R IH]; intros pre post r E.
  - destruct pre; discriminate.
  - now rewrite (map_pass_probe_first _ _ _ _ _ _ P E).
  - apply app_split_cases in E.
    destruct E as [(x & E & _) | (x & -> & E)].
    + now rewrite (map_pass_probe_first _ _ _ _ _ _ P E).
    + rewrite outstanding_app, (map_pass_outstanding _ _ _ P).
      now apply (IH x post r).
Qed.

Lemma exit_pass_probe_first (ImageHandle : EFI_HANDLE) (t : list Call)
  (fl : Flow) (pre post : list Call) (r : MemoryMapReply) :
  exit_pass ImageHandle t fl -> t = pre ++ ProbeCall r :: post -> pre = [].
Proof.
  intros P. invert_pass; intros E; locate E pre; reflexivity.
Qed.

Lemma exit_run_probe_outstanding (ImageHandle : EFI_HANDLE) (left : nat)
  (t : list Call) (s : EFI_STATUS) :
  exit_run ImageHandle left t s ->
  forall pre post r,
  t = pre ++ ProbeCall r :: post -> outstanding [] pre = [].
Proof.
  induction 1 as [|left t s P|left t t' s P R IH]; intros pre post r E.
  - destruct pre; discriminate.
  - now rewrite (exit_pass_probe_first _ _ _ _ _ _ P E).
  - apply app_split_cases in E.
    destruct E as [(x & E & _) | (x & -> & E)].
    + now rewrite (exit_pass_probe_first _ _ _ _ _ _ P E).
    + rewrite outstanding_app, (exit_pass_fallthrough_outstanding _ _ P).
      now apply (IH x post r).
Qed.

(** *** A fetch uses what was just allocated *)

Lemma map_pass_fetch_follows (t : list Call) (fl : Flow)
  (h : option (pointer * UINTN)) (before : list Call) :
  map_pass t fl h -> each_call fetch_follows_allocation before t.
Proof.
  intros P. invert_pass; cbn; repeat split; trivial.
Qed.

Lemma exit_pass_fetch_follows (ImageHandle : EFI_HANDLE) (t : list Call)
  (fl : Flow) (before : list Call) :
  exit_pass ImageHandle t fl ->
  each_call fetch_follows_allocation before t.
Proof.
  intros P. invert_pass; cbn; repeat split; trivial.
Qed.

(** *** What a successful exit_boot_services has done *)

Lemma exit_run_success_final_handshake (ImageHandle : EFI_HANDLE)
  (left : nat) (t : list Call) (s : EFI_STATUS) :
  EFI_ERROR EFI_SUCCESS = false ->
  EFI_ABORTED <> EFI_SUCCESS ->
  exit_run ImageHandle left t s ->
  s = EFI_SUCCESS ->
  (forall r, In (ProbeCall r) t -> reply_Status r <> EFI_SUCCESS) ->
  exists pre sz b r,
    t = pre ++ [FetchCall sz b r;
                ExitBootServicesCall ImageHandle (reply_MapKey r)
                  EFI_SUCCESS].
Proof.
  intros Hok Hab.
  induction 1 as [|left t s P|left t t' s P R IH]; intros Hs Hp.
  - congruence.
  - inversion P; subst;
      match goal with A : acquisition _ _ _ |- _ => inversion A; subst end;
      try congruence.
    + exfalso.
      match goal with
      | Hr : reply_Status ?r = EFI_SUCCESS |- _ =>
          apply (Hp r); [now left | exact Hr]
      end.
    + now eexists [_; _], _, _, _.
  - destruct IH as (pre & sz & b & r & ->); trivial.
    + intros r Hin. apply Hp, in_or_app. now right.
    + exists (t ++ pre), sz, b, r. now rewrite app_assoc.
Qed.

End MoreRuns.

(** ** What the code leaves in the out-locations and in the log *)

Section MoreCode.
Context `{uefi_headers} {F : Type}.

Ltac step_GetMemoryMap r :=
  match goal with
  | |- context [GetMemoryMap ?b ?s ?m ?k ?d ?v ?f] =>
      destruct (GetMemoryMap b s m k d v f) as [r ?]
  end; cbn.

Ltac step_AllocatePool st p :=
  match goal with
  | |- context [AllocatePool ?b ?t ?s ?m ?f] =>
      destruct (AllocatePool b t s m f) as [[st p] ?]
  end; cbn.

Ltac step_FreePool :=
  match goal with
  | |- context [FreePool ?b ?m ?f] =>
      destruct (FreePool b m f) as [? ?]
  end; cbn.

Ltac step_ExitBootServices st :=
  match goal with
  | |- context [ExitBootServices ?b ?h ?k ?f] =>
      destruct (ExitBootServices b h k f) as [st ?]
  end; cbn.


(** After a pass of get_memory_map, MapKey, DescriptorSize and
    DescriptorVersion hold what the last GetMemoryMap call of the pass
    left there. *)
Lemma map_attempt_replies (BS : EFI_BOOT_SERVICES F) (Retry : UINTN)
  (v : get_memory_map_c.Vars) (w : World F) :
  let res := get_memory_map_c.attempt BS Retry v w in
  exists t r,
    calls (snd res) = calls w ++ t /\
    last_reply t = Some r /\
    (get_memory_map_c.at_MapKey (snd (fst res)),
     get_memory_map_c.at_DescriptorSize (snd (fst res)),
     get_memory_map_c.at_DescriptorVersion (snd (fst res)))
    = (reply_MapKey r, reply_DescriptorSize r, reply_DescriptorVersion r).
Proof.
  unfold get_memory_map_c.attempt, bind, call_probe, call_AllocatePool,
    call_fetch, call_FreePool, record_call, UEFI_LOG, ret.
  cbn. step_GetMemoryMap r.
  destruct (reply_Status r =? EFI_BUFFER_TOO_SMALL); cbn.
  2: { exists [ProbeCall r], r. repeat split. }
  step_AllocatePool st p.
  destruct (EFI_ERROR st); cbn.
  { eexists _, r. rewrite <- app_assoc. cbn. repeat split. }
  step_GetMemoryMap r'.
  destruct (EFI_ERROR (reply_Status r')); cbn.
  { step_FreePool. eexists _, r'. rewrite <- !app_assoc. cbn.
    repeat split. }
  destruct (to_UINTN p mod sizeof_UINT64 =? 0); cbn.
  - eexists _, r'. rewrite <- !app_assoc. cbn. repeat split.
  - step_FreePool. eexists _, r'. rewrite <- !app_assoc. cbn.
    repeat split.
Qed.

Lemma map_attempts_replies (BS : EFI_BOOT_SERVICES F) (left : nat) :
  forall (Retry : UINTN) (v : get_memory_map_c.Vars) (w : World F),
  let res := get_memory_map_c.attempts BS left Retry v w in
  exists t,
    calls (snd res) = calls w ++ t /\
    (get_memory_map_c.at_MapKey (snd (fst res)),
     get_memory_map_c.at_DescriptorSize (snd (fst res)),
     get_memory_map_c.at_DescriptorVersion (snd (fst res)))
    = match last_reply t with
      | Some r =>
          (reply_MapKey r, reply_DescriptorSize r, reply_DescriptorVersion r)
      | None =>
          (get_memory_map_c.at_MapKey v,
           get_memory_map_c.at_DescriptorSize v,
           get_memory_map_c.at_DescriptorVersion v)
      end.
Proof.
  induction left as [|left IH]; intros Retry v w; cbn.
  - exists []. rewrite app_nil_r. split; reflexivity.
  - unfold bind.
    destruct (map_attempt_replies BS Retry v w) as (t & r & Hc & Hl & Hk).
    destruct (get_memory_map_c.attempt BS Retry v w) as [[fl v1] w1].
    cbn in *. destruct fl as [s|]; cbn.
    + exists t. rewrite Hl. split; trivial.
    + destruct (IH (to_UINTN (Retry + 1)) v1 w1) as (t' & Hc' & Hr).
      exists (t ++ t'). rewrite Hc', Hc, app_assoc. split; trivial.
      rewrite Hr, last_reply_app.
      destruct (last_reply t'); [reflexivity|].
      now rewrite Hl.
Qed.

(** A pass of get_memory_map that returns a status other than
    EFI_SUCCESS has just logged an error or a critical message. *)
Lemma map_attempt_logs_failure (BS : EFI_BOOT_SERVICES F) (Retry : UINTN)
  (v : get_memory_map_c.Vars) (w : World F) (s : EFI_STATUS) :
  let res := get_memory_map_c.attempt BS Retry v w in
  fst (fst res) = Returned s ->
  s <> EFI_SUCCESS ->
  ends_with_failure (logged (snd res)).
Proof.
  unfold get_memory_map_c.attempt, bind, call_probe, call_AllocatePool,
    call_fetch, call_FreePool, record_call, UEFI_LOG, ret,
    ends_with_failure.
  cbn. step_GetMemoryMap r.
  destruct (reply_Status r =? EFI_BUFFER_TOO_SMALL); cbn.
  2: { intros _ _. eexists _, _, _, _. split; [reflexivity | now left]. }
  step_AllocatePool st p.
  destruct (EFI_ERROR st); cbn.
  { intros _ _. eexists _, _, _, _. split; [reflexivity | now left]. }
  step_GetMemoryMap r'.
  destruct (EFI_ERROR (reply_Status r')); cbn.
  { step_FreePool. discriminate. }
  destruct (to_UINTN p mod sizeof_UINT64 =? 0); cbn.
  - intros E Hs. inversion E. congruence.
  - step_FreePool. intros _ _.
    eexists _, _, _, _. split; [reflexivity | now right].
Qed.

Lemma map_attempts_log_failure (BS : EFI_BOOT_SERVICES F) (left : nat) :
  forall (Retry : UINTN) (v : get_memory_map_c.Vars) (w : World F)
         (s : EFI_STATUS),
  let res := get_memory_map_c.attempts BS left Retry v w in
  fst (fst res) = Returned s ->
  s <> EFI_SUCCESS ->
  ends_with_failure (logged (snd res)).
Proof.
  induction left as [|left IH]; intros Retry v w s; cbn.
  - discriminate.
  - unfold bind.
    pose proof (map_attempt_logs_failure BS Retry v w) as Ha.
    destruct (get_memory_map_c.attempt BS Retry v w) as [[fl v1] w1].
    cbn in *. destruct fl as [s1|]; cbn.
    + intros E. inversion E; subst. now apply Ha.
    + apply IH.
Qed.

(** The same for a pass of exit_boot_services. *)
Lemma exit_attempt_logs_failure (BS : EFI_BOOT_SERVICES F)
  (ImageHandle : EFI_HANDLE) (Retry : UINTN)
  (v : exit_boot_services_c.Vars) (w : World F) (s : EFI_STATUS) :
  let res := exit_boot_services_c.attempt BS ImageHandle Retry v w in
  fst (fst res) = Returned s ->
  s <> EFI_SUCCESS ->
  ends_with_failure (logged (snd res)).
Proof.
  unfold exit_boot_services_c.attempt, bind, call_probe, call_AllocatePool,
    call_fetch, call_FreePool, call_ExitBootServices, record_call, UEFI_LOG,
    ret, ends_with_failure.
  cbn. step_GetMemoryMap r.
  destruct (reply_Status r =? EFI_BUFFER_TOO_SMALL); cbn.
  2: { intros _ _. eexists _, _, _, _. split; [reflexivity | now left]. }
  step_AllocatePool st p.
  destruct (EFI_ERROR st); cbn.
  { intros _ _. eexists _, _, _, _. split; [reflexivity | now left]. }
  step_GetMemoryMap r'.
  destruct (EFI_ERROR (reply_Status r')); cbn.
  { step_FreePool. discriminate. }
  step_ExitBootServices st'.
  destruct (st' =? EFI_SUCCESS); cbn.
  - intros E Hs. inversion E. congruence.
  - step_FreePool. discriminate.
Qed.

Lemma exit_attempts_log_failure (BS : EFI_BOOT_SERVICES F)
  (ImageHandle : EFI_HANDLE) (left : nat) :
  forall (Retry : UINTN) (v : exit_boot_services_c.Vars) (w : World F)
         (s : EFI_STATUS),
  let res := exit_boot_services_c.attempts BS ImageHandle left Retry v w in
  fst (fst res) = Returned s ->
  s <> EFI_SUCCESS ->
  ends_with_failure (logged (snd res)).
Proof.
  induction left as [|left IH]; intros Retry v w s; cbn.
  - discriminate.
  - unfold bind.
    pose proof (exit_attempt_logs_failure BS ImageHandle Retry v w) as Ha.
    destruct (exit_boot_services_c.attempt BS ImageHandle Retry v w)
      as [[fl v1] w1].
    cbn in *. destruct fl as [s1|]; cbn.
    + intros E. inversion E; subst. now apply Ha.
    + apply IH.
Qed.




End MoreCode.

(** ** Further properties of the two functions *)

Section Extras.
Context `{uefi_headers} {F : Type}.

Lemma final_fetch_is_last_reply (t : list Call) (sz : UINTN) (b : pointer)
  (r : MemoryMapReply) :
  final_call t = Some (FetchCall sz b r) -> last_reply t = Some r.
Proof.
  induction t as [|c t IH]; cbn; [discriminate|].
  destruct (final_call t) as [c'|] eqn:Ef.
  - intros E. now rewrite (IH E).
  - intros E. inversion E; subst.
    destruct t as [|c' t]; [reflexivity|].
    cbn in Ef. destruct (final_call t); discriminate.
Qed.

(** X1. get_memory_map with a null pointer among its five arguments
    returns EFI_INVALID_PARAMETER, whether the environment is ready or
    not: it calls nothing, leaves the firmware and the arguments as they
    were, and logs one error. *)
Theorem get_memory_map_rejects_null_argument
  (gST : option (EFI_SYSTEM_TABLE F)) (args : get_memory_map_c.OutParams)
  (f : F) :
  get_memory_map_c.any_null args = true ->
  let res := get_memory_map_c.get_memory_map gST args (boot f) in
  fst (fst res) = EFI_INVALID_PARAMETER /\
  snd (fst res) = args /\
  calls (snd res) = [] /\
  firmware (snd res) = f /\
  logged (snd res)
  = [(LOG_ERROR, "get_memory_map: invalid parameters"%string, [])].
Proof.
  unfold get_memory_map_c.get_memory_map, get_memory_map_c.any_null.
  destruct args as [[mm|] [mms|] [mk|] [ds|] [dv|]]; cbn;
    try discriminate; intros _; repeat split.
Qed.

(** X2. An AllocatePool call that returns an error is the last call of
    either function, which returns that error: nothing is retried,
    fetched or released after it, and get_memory_map leaves MemoryMap and
    MemoryMapSize as they were. *)
Theorem failed_allocation_is_fatal
  (gST : option (EFI_SYSTEM_TABLE F)) (args : get_memory_map_c.OutParams)
  (ImageHandle : EFI_HANDLE) (f : F) :
  (let res := get_memory_map_c.get_memory_map gST args (boot f) in
   forall pre ty sz st b post,
     calls (snd res) = pre ++ AllocatePoolCall ty sz st b :: post ->
     EFI_ERROR st = true ->
     post = [] /\
     fst (fst res) = st /\
     get_memory_map_c.MemoryMap (snd (fst res))
     = get_memory_map_c.MemoryMap args /\
     get_memory_map_c.MemoryMapSize (snd (fst res))
     = get_memory_map_c.MemoryMapSize args) /\
  (let res :=
     exit_boot_services_c.exit_boot_services gST ImageHandle (boot f) in
   forall pre ty sz st b post,
     calls (snd res) = pre ++ AllocatePoolCall ty sz st b :: post ->
     EFI_ERROR st = true ->
     post = [] /\ fst res = st).
Proof.
  cbn zeta. split; intros pre ty sz st b post E He.
  - destruct (get_memory_map_run gST args f)
      as [(_ & E0) | (h & R & Em & Es)].
    { rewrite E0 in E. now apply not_in_empty_trace in E. }
    destruct (map_run_after_failed_allocation _ _ _ _ R _ _ _ _ _ _ E He)
      as (-> & -> & ->).
    rewrite Em, Es. repeat split.
  - destruct (exit_boot_services_run gST ImageHandle f) as [E0 | R].
    { rewrite E0 in E. now apply not_in_empty_trace in E. }
    apply (exit_run_after_failed_allocation _ _ _ _ R _ _ _ _ _ _ E He).
Qed.

(** X3. In exit_boot_services, an ExitBootServices call that returns
    EFI_SUCCESS is the last call, and the function returns EFI_SUCCESS: no
    boot service is used after the exit.  A call that returns anything
    else is followed by the release of the buffer that was fetched into
    just before it. *)
Theorem nothing_follows_a_successful_handshake
  (gST : option (EFI_SYSTEM_TABLE F)) (ImageHandle : EFI_HANDLE) (f : F) :
  let res :=
    exit_boot_services_c.exit_boot_services gST ImageHandle (boot f) in
  forall pre h k st post,
    calls (snd res) = pre ++ ExitBootServicesCall h k st :: post ->
    (st = EFI_SUCCESS -> post = [] /\ fst res = EFI_SUCCESS) /\
    (st <> EFI_SUCCESS ->
     exists pre' sz b r post',
       pre = pre' ++ [FetchCall sz b r] /\ post = FreePoolCall b :: post').
Proof.
  cbn zeta. intros pre h k st post E.
  destruct (exit_boot_services_run gST ImageHandle f) as [E0 | R].
  { rewrite E0 in E. now apply not_in_empty_trace in E. }
  destruct (exit_run_after_handshake _ _ _ _ R _ _ _ _ _ E)
    as [(Hs & Hp & Hr) | (Hs & Hex)]; split; intros Hst;
    try contradiction; auto.
Qed.

(** X4. exit_boot_services leaves no buffer allocated, unless it ends with
    a successful handshake: then it returns EFI_SUCCESS and the one buffer
    left allocated is the buffer of the fetch just before that
    handshake. *)
Theorem exit_boot_services_releases_what_it_allocates
  (gST : option (EFI_SYSTEM_TABLE F)) (ImageHandle : EFI_HANDLE) (f : F) :
  let res :=
    exit_boot_services_c.exit_boot_services gST ImageHandle (boot f) in
  outstanding [] (calls (snd res)) = [] \/
  exists pre sz b r k,
    calls (snd res)
    = pre ++ [FetchCall sz b r;
              ExitBootServicesCall ImageHandle k EFI_SUCCESS] /\
    outstanding [] (calls (snd res)) = [b] /\
    fst res = EFI_SUCCESS.
Proof.
  cbn zeta.
  destruct (exit_boot_services_run gST ImageHandle f) as [E0 | R].
  { left. now rewrite E0. }
  apply (exit_run_outstanding _ _ _ _ R).
Qed.

(** X5. Whatever the firmware answers, get_memory_map makes at most 8
    probes, 8 allocations, 8 fetches and 8 releases, 32 calls in all, and
    exit_boot_services at most 8 of each and 8 handshakes, 40 calls in
    all. *)
Theorem calls_are_bounded
  (gST : option (EFI_SYSTEM_TABLE F)) (args : get_memory_map_c.OutParams)
  (ImageHandle : EFI_HANDLE) (f : F) :
  (let t := calls (snd (get_memory_map_c.get_memory_map gST args (boot f)))
   in
   count is_probe t <= 8 /\ count is_allocation t <= 8 /\
   count is_fetch t <= 8 /\ count is_release t <= 8 /\
   List.length t <= 32)%nat /\
  (let t :=
     calls (snd (exit_boot_services_c.exit_boot_services gST ImageHandle
                   (boot f))) in
   count is_probe t <= 8 /\ count is_allocation t <= 8 /\
   count is_fetch t <= 8 /\ count is_handshake t <= 8 /\
   count is_release t <= 8 /\ List.length t <= 40)%nat.
Proof.
  cbn zeta. split.
  - destruct (get_memory_map_run gST args f) as [(_ & E0) | (h & R & _)].
    { rewrite E0. cbn. lia. }
    pose proof (map_run_size _ _ _ _ R). lia.
  - destruct (exit_boot_services_run gST ImageHandle f) as [E0 | R].
    { rewrite E0. cbn. lia. }
    pose proof (exit_run_size _ _ _ _ R). lia.
Qed.

(** X6. When get_memory_map has called GetMemoryMap at all, the locations
    MapKey, DescriptorSize and DescriptorVersion hold what the last of
    those calls left there; in particular, when the last call of the
    function is a fetch (the function then returns its buffer), they hold
    the key, descriptor size and version of that fetch. *)
Theorem get_memory_map_returns_last_reply
  (gST : option (EFI_SYSTEM_TABLE F)) (args : get_memory_map_c.OutParams)
  (f : F) :
  let res := get_memory_map_c.get_memory_map gST args (boot f) in
  (forall r,
     last_reply (calls (snd res)) = Some r ->
     get_memory_map_c.MapKey (snd (fst res)) = Some (reply_MapKey r) /\
     get_memory_map_c.DescriptorSize (snd (fst res))
     = Some (reply_DescriptorSize r) /\
     get_memory_map_c.DescriptorVersion (snd (fst res))
     = Some (reply_DescriptorVersion r)) /\
  (forall sz b r,
     final_call (calls (snd res)) = Some (FetchCall sz b r) ->
     get_memory_map_c.MapKey (snd (fst res)) = Some (reply_MapKey r) /\
     get_memory_map_c.DescriptorSize (snd (fst res))
     = Some (reply_DescriptorSize r) /\
     get_memory_map_c.DescriptorVersion (snd (fst res))
     = Some (reply_DescriptorVersion r)).
Proof.
  cbn zeta.
  assert (forall r,
     last_reply (calls (snd (get_memory_map_c.get_memory_map gST args
                               (boot f)))) = Some r ->
     get_memory_map_c.MapKey
       (snd (fst (get_memory_map_c.get_memory_map gST args (boot f))))
     = Some (reply_MapKey r) /\
     get_memory_map_c.DescriptorSize
       (snd (fst (get_memory_map_c.get_memory_map gST args (boot f))))
     = Some (reply_DescriptorSize r) /\
     get_memory_map_c.DescriptorVersion
       (snd (fst (get_memory_map_c.get_memory_map gST args (boot f))))
     = Some (reply_DescriptorVersion r)) as Hlast.
  { intros r.
    destruct (get_memory_map_c.any_null args) eqn:En.
    { destruct (get_memory_map_not_started gST args f (or_introl En))
        as (_ & _ & -> & _). discriminate. }
    destruct (boot_services gST) as [BS|] eqn:HBS.
    2: { destruct (get_memory_map_not_started gST args f (or_intror HBS))
           as (_ & _ & -> & _). discriminate. }
    destruct (any_null_false args En) as (mm & mms & mk & ds & dv & ->).
    unfold get_memory_map_c.get_memory_map. cbn. rewrite HBS. cbn.
    unfold bind.
    match goal with
    | |- context [get_memory_map_c.attempts BS ?n ?q ?v ?w] =>
        destruct (map_attempts_replies BS n q v w) as (t & Hc & Hr);
        destruct (get_memory_map_c.attempts BS n q v w) as [[fl v1] w1]
    end.
    cbn in *.
    assert (last_reply (calls w1) = Some r ->
            get_memory_map_c.at_MapKey v1 = reply_MapKey r /\
            get_memory_map_c.at_DescriptorSize v1 = reply_DescriptorSize r /\
            get_memory_map_c.at_DescriptorVersion v1
            = reply_DescriptorVersion r) as Hv.
    { rewrite Hc. intros E. rewrite E in Hr. inversion Hr. auto. }
    destruct fl; cbn; intros E; destruct (Hv E) as (-> & -> & ->);
      repeat split. }
  split; [exact Hlast|].
  intros sz b r Ef. apply Hlast. now apply final_fetch_is_last_reply in Ef.
Qed.

(** X7. In both functions every fetch comes right after a successful
    AllocatePool call, and is given the buffer and the size of that
    allocation: no fetch goes into a buffer of an earlier pass. *)
Theorem fetch_uses_the_allocated_buffer
  (gST : option (EFI_SYSTEM_TABLE F)) (args : get_memory_map_c.OutParams)
  (ImageHandle : EFI_HANDLE) (f : F) :
  (forall pre sz b r post,
     calls (snd (get_memory_map_c.get_memory_map gST args (boot f)))
     = pre ++ FetchCall sz b r :: post ->
     exists pre' ty st,
       pre = pre' ++ [AllocatePoolCall ty sz st b] /\
       EFI_ERROR st = false) /\
  (forall pre sz b r post,
     calls (snd (exit_boot_services_c.exit_boot_services gST ImageHandle
                   (boot f)))
     = pre ++ FetchCall sz b r :: post ->
     exists pre' ty st,
       pre = pre' ++ [AllocatePoolCall ty sz st b] /\
       EFI_ERROR st = false).
Proof.
  split; intros pre sz b r post E.
  - destruct (get_memory_map_run gST args f) as [(_ & E0) | (h & R & _)].
    { rewrite E0 in E. now apply not_in_empty_trace in E. }
    pose proof (map_run_each_call _ map_pass_fetch_follows _ _ _ _ R [])
      as Hall.
    rewrite E in Hall. apply each_call_at in Hall. cbn in Hall.
    destruct (rev pre ++ []) as [|[] l] eqn:Erev; try contradiction.
    destruct Hall as (-> & -> & Hs & _).
    apply (rev_eq_app pre [_] l) in Erev. cbn in Erev.
    rewrite Erev. now eexists _, _, _.
  - destruct (exit_boot_services_run gST ImageHandle f) as [E0 | R].
    { rewrite E0 in E. now apply not_in_empty_trace in E. }
    pose proof (exit_run_each_call _ _
                  (exit_pass_fetch_follows ImageHandle) _ _ _ R [])
      as Hall.
    rewrite E in Hall. apply each_call_at in Hall. cbn in Hall.
    destruct (rev pre ++ []) as [|[] l] eqn:Erev; try contradiction.
    destruct Hall as (-> & -> & Hs & _).
    apply (rev_eq_app pre [_] l) in Erev. cbn in Erev.
    rewrite Erev. now eexists _, _, _.
Qed.

(** X8. Neither function fails silently: whenever one returns a status
    other than EFI_SUCCESS, the last message it logged is an error or a
    critical message. *)
Theorem failure_is_never_silent
  (gST : option (EFI_SYSTEM_TABLE F)) (args : get_memory_map_c.OutParams)
  (ImageHandle : EFI_HANDLE) (f : F) :
  (let res := get_memory_map_c.get_memory_map gST args (boot f) in
   fst (fst res) <> EFI_SUCCESS -> ends_with_failure (logged (snd res))) /\
  (let res :=
     exit_boot_services_c.exit_boot_services gST ImageHandle (boot f) in
   fst res <> EFI_SUCCESS -> ends_with_failure (logged (snd res))).
Proof.
  cbn zeta. split.
  - unfold get_memory_map_c.get_memory_map.
    destruct args as [[mm|] [mms|] [mk|] [ds|] [dv|]]; cbn;
      try (intros _; exists [], LOG_ERROR; eexists _, _;
           split; [reflexivity | now left]).
    destruct (boot_services gST) as [BS|]; cbn.
    2: { intros _. exists [], LOG_CRITICAL. eexists _, _.
         split; [reflexivity | now right]. }
    unfold bind.
    match goal with
    | |- context [get_memory_map_c.attempts BS ?n ?q ?v ?w] =>
        pose proof (map_attempts_log_failure BS n q v w) as Hl;
        destruct (get_memory_map_c.attempts BS n q v w) as [[fl v1] w1]
    end.
    cbn in *. destruct fl as [s|]; cbn.
    + intros Hs. now apply (Hl s).
    + intros _. eexists _, LOG_CRITICAL. eexists _, _.
      split; [reflexivity | now right].
  - unfold exit_boot_services_c.exit_boot_services.
    destruct (ImageHandle =? NULL); cbn.
    { intros _. exists [], LOG_ERROR. eexists _, _.
      split; [reflexivity | now left]. }
    destruct (boot_services gST) as [BS|]; cbn.
    2: { intros _. exists [], LOG_CRITICAL. eexists _, _.
         split; [reflexivity | now right]. }
    unfold bind.
    match goal with
    | |- context [exit_boot_services_c.attempts BS ?i ?n ?q ?v ?w] =>
        pose proof (exit_attempts_log_failure BS i n q v w) as Hl;
        destruct (exit_boot_services_c.attempts BS i n q v w)
          as [[fl v1] w1]
    end.
    cbn in *. destruct fl as [s|]; cbn.
    + intros Hs. now apply (Hl s).
    + intros _. eexists _, LOG_CRITICAL. eexists _, _.
      split; [reflexivity | now right].
Qed.


(** X10. With status codes for which EFI_SUCCESS is no error and differs
    from EFI_ABORTED: when exit_boot_services returns EFI_SUCCESS, and
    not because a probe answered EFI_SUCCESS, its last two calls are a
    fetch and an ExitBootServices call that was given the image handle and
    the key of that fetch and returned EFI_SUCCESS. *)
Theorem exit_success_means_handshake_success {L : uefi_status_laws}
  (gST : option (EFI_SYSTEM_TABLE F)) (ImageHandle : EFI_HANDLE) (f : F) :
  EFI_ABORTED <> EFI_SUCCESS ->
  let res :=
    exit_boot_services_c.exit_boot_services gST ImageHandle (boot f) in
  fst res = EFI_SUCCESS ->
  (forall r, In (ProbeCall r) (calls (snd res)) ->
             reply_Status r <> EFI_SUCCESS) ->
  exists pre sz b r,
    calls (snd res)
    = pre ++ [FetchCall sz b r;
              ExitBootServicesCall ImageHandle (reply_MapKey r)
                EFI_SUCCESS].
Proof.
  intros Hab. cbn zeta. intros Hs Hp.
  pose proof success_is_no_error as Hok.
  pose proof invalid_parameter_is_error as Hip.
  pose proof not_ready_is_error as Hnr.
  destruct (Z.eq_dec ImageHandle NULL) as [E | E].
  { exfalso.
    destruct (exit_boot_services_not_started gST ImageHandle f (or_introl E))
      as (Es & _).
    rewrite Hs in Es. destruct (ImageHandle =? NULL); congruence. }
  destruct (boot_services gST) as [BS|] eqn:HBS.
  2: { exfalso.
       destruct (exit_boot_services_not_started gST ImageHandle f
                   (or_intror HBS)) as (Es & _).
       rewrite Hs in Es. destruct (ImageHandle =? NULL); congruence. }
  pose proof (exit_boot_services_sound gST BS ImageHandle f HBS E) as R.
  now apply (exit_run_success_final_handshake _ _ _ _ Hok Hab R Hs Hp).
Qed.

(** X11. In both functions every probe is made with no buffer allocated:
    each pass starts after whatever the passes before it allocated has
    been released. *)
Theorem every_pass_starts_with_nothing_allocated
  (gST : option (EFI_SYSTEM_TABLE F)) (args : get_memory_map_c.OutParams)
  (ImageHandle : EFI_HANDLE) (f : F) :
  (forall pre r post,
     calls (snd (get_memory_map_c.get_memory_map gST args (boot f)))
     = pre ++ ProbeCall r :: post ->
     outstanding [] pre = []) /\
  (forall pre r post,
     calls (snd (exit_boot_services_c.exit_boot_services gST ImageHandle
                   (boot f)))
     = pre ++ ProbeCall r :: post ->
     outstanding [] pre = []).
Proof.
  split; intros pre r post E.
  - destruct (get_memory_map_run gST args f) as [(_ & E0) | (h & R & _)].
    { rewrite E0 in E. now apply not_in_empty_trace in E. }
    apply (map_run_probe_outstanding _ _ _ _ R pre post r E).
  - destruct (exit_boot_services_run gST ImageHandle f) as [E0 | R].
    { rewrite E0 in E. now apply not_in_empty_trace in E. }
    apply (exit_run_probe_outstanding _ _ _ _ R pre post r E).
Qed.

(** X12. The size asked of AllocatePool is computed without an overflow
    check.  For a probe that reports a size and a descriptor size that are
    not negative, with 16 extra descriptors in get_memory_map and 8 in
    exit_boot_services: when the sum stays below 2^64 the allocation asks
    for exactly that sum, which is at least the probed size; when the sum
    reaches 2^64 it asks for less than that sum. *)
Theorem allocation_size_wraps_on_overflow
  (gST : option (EFI_SYSTEM_TABLE F)) (args : get_memory_map_c.OutParams)
  (ImageHandle : EFI_HANDLE) (f : F) :
  (forall pre ty sz st b post,
     calls (snd (get_memory_map_c.get_memory_map gST args (boot f)))
     = pre ++ AllocatePoolCall ty sz st b :: post ->
     exists pre' r,
       pre = pre' ++ [ProbeCall r] /\
       (0 <= reply_MemoryMapSize r -> 0 <= reply_DescriptorSize r ->
        let sum := reply_MemoryMapSize r + reply_DescriptorSize r * 16 in
        (sum < 2 ^ 64 -> sz = sum /\ reply_MemoryMapSize r <= sz) /\
        (2 ^ 64 <= sum -> sz < sum))) /\
  (forall pre ty sz st b post,
     calls (snd (exit_boot_services_c.exit_boot_services gST ImageHandle
                   (boot f)))
     = pre ++ AllocatePoolCall ty sz st b :: post ->
     exists pre' r,
       pre = pre' ++ [ProbeCall r] /\
       (0 <= reply_MemoryMapSize r -> 0 <= reply_DescriptorSize r ->
        let sum := reply_MemoryMapSize r + reply_DescriptorSize r * 8 in
        (sum < 2 ^ 64 -> sz = sum /\ reply_MemoryMapSize r <= sz) /\
        (2 ^ 64 <= sum -> sz < sum))).
Proof.
  assert (forall extra r,
            0 <= extra ->
            0 <= reply_MemoryMapSize r -> 0 <= reply_DescriptorSize r ->
            let sum := reply_MemoryMapSize r + reply_DescriptorSize r * extra
            in
            (sum < 2 ^ 64 ->
             slack_size extra r = sum /\
             reply_MemoryMapSize r <= slack_size extra r) /\
            (2 ^ 64 <= sum -> slack_size extra r < sum)) as Hslack.
  { intros extra r He Hs Hd sum. rewrite slack_size_spec. fold sum.
    assert (0 <= sum) by (unfold sum; nia).
    split.
    - intros Hlt. rewrite Z.mod_small by lia. split; [reflexivity|].
      unfold sum. nia.
    - intros Hge. pose proof (Z.mod_pos_bound sum (2 ^ 64)). lia. }
  split; intros pre ty sz st b post E.
  - destruct (get_memory_map_run gST args f) as [(_ & E0) | (h & R & _)].
    { rewrite E0 in E. now apply not_in_empty_trace in E. }
    pose proof (map_run_each_call _ map_pass_sized _ _ _ _ R []) as Hall.
    rewrite E in Hall. apply each_call_at in Hall. cbn in Hall.
    destruct (rev pre ++ []) as [|[] l] eqn:Erev; try contradiction.
    destruct Hall as (_ & _ & ->).
    apply (rev_eq_app pre [_] l) in Erev. cbn in Erev.
    exists (rev l), reply. split; trivial.
    intros Hs Hd. apply (Hslack 16 reply); trivial. lia.
  - destruct (exit_boot_services_run gST ImageHandle f) as [E0 | R].
    { rewrite E0 in E. now apply not_in_empty_trace in E. }
    pose proof (exit_run_each_call _ _ (exit_pass_sized ImageHandle)
                  _ _ _ R []) as Hall.
    rewrite E in Hall. apply each_call_at in Hall. cbn in Hall.
    destruct (rev pre ++ []) as [|[] l] eqn:Erev; try contradiction.
    destruct Hall as (_ & _ & ->).
    apply (rev_eq_app pre [_] l) in Erev. cbn in Erev.
    exists (rev l), reply. split; trivial.
    intros Hs Hd. apply (Hslack 8 reply); trivial. lia.
Qed.

End Extras.

(** ** The further properties at concrete inputs *)

(** X1 with a null MapKey pointer, on a ready firmware. *)
Lemma get_memory_map_rejects_null_argument_witness :
  let args :=
    {| get_memory_map_c.MemoryMap := Some 0xAA;
       get_memory_map_c.MemoryMapSize := Some 0xBB;
       get_memory_map_c.MapKey := None;
       get_memory_map_c.DescriptorSize := Some 0xDD;
       get_memory_map_c.DescriptorVersion := Some 0xEE |} in
  let res :=
    @get_memory_map_c.get_memory_map uefi64 Seen (ready example_script) args
      (boot nothing_seen) in
  fst (fst res) = @EFI_INVALID_PARAMETER uefi64 /\
  snd (fst res) = args /\
  calls (snd res) = [] /\
  firmware (snd res) = nothing_seen /\
  logged (snd res)
  = [(LOG_ERROR, "get_memory_map: invalid parameters"%string, [])].
Proof.
  apply (@get_memory_map_rejects_null_argument uefi64 Seen
           (ready example_script)).
  reflexivity.
Defined.

(** X2 at a firmware whose AllocatePool fails with EFI_OUT_OF_RESOURCES. *)
Lemma failed_allocation_is_fatal_witness :
  let gST := Some {| BootServices := Some (out_of_memory example_script) |} in
  (let res :=
     @get_memory_map_c.get_memory_map uefi64 Seen gST caller_locations
       (boot nothing_seen) in
   @nil Call = [] /\
   fst (fst res) = EFIERR 9 /\
   get_memory_map_c.MemoryMap (snd (fst res)) = Some 0xAA /\
   get_memory_map_c.MemoryMapSize (snd (fst res)) = Some 0xBB) /\
  (let res :=
     @exit_boot_services_c.exit_boot_services uefi64 Seen gST an_image
       (boot nothing_seen) in
   @nil Call = [] /\ fst res = EFIERR 9).
Proof.
  split.
  - apply (proj1 (@failed_allocation_is_fatal uefi64 Seen
                    (Some {| BootServices :=
                               Some (out_of_memory example_script) |})
                    caller_locations an_image nothing_seen)
             [ProbeCall (example_probe 0xCC)] 2 4864 (EFIERR 9) NULL []);
      reflexivity.
  - apply (proj2 (@failed_allocation_is_fatal uefi64 Seen
                    (Some {| BootServices :=
                               Some (out_of_memory example_script) |})
                    caller_locations an_image nothing_seen)
             [ProbeCall (example_probe 0)] 2 4480 (EFIERR 9) NULL []);
      reflexivity.
Defined.

(** X3 at the example firmware, whose first handshake succeeds, and at a
    firmware that refuses the first handshake. *)
Lemma nothing_follows_a_successful_handshake_witness :
  (let res :=
     @exit_boot_services_c.exit_boot_services uefi64 Seen
       (ready example_script) an_image (boot nothing_seen) in
   @nil Call = [] /\ fst res = @EFI_SUCCESS uefi64) /\
  (exists pre' sz b r post',
     [ProbeCall (example_probe 0); AllocatePoolCall 2 4480 0 0x100000;
      FetchCall 4480 0x100000 example_fetch]
     = pre' ++ [FetchCall sz b r] /\
     [FreePoolCall 0x100000; ProbeCall (example_probe 0x1122);
      AllocatePoolCall 2 4480 0 0x101000;
      FetchCall 4480 0x101000
        {| reply_Status := @EFI_SUCCESS uefi64; reply_MemoryMapSize := 4200;
           reply_MapKey := 0x1123; reply_DescriptorSize := 48;
           reply_DescriptorVersion := 1 |};
      ExitBootServicesCall an_image 0x1123 0]
     = FreePoolCall b :: post').
Proof.
  split.
  - apply (@nothing_follows_a_successful_handshake uefi64 Seen
             (ready example_script) an_image nothing_seen
             [ProbeCall (example_probe 0); AllocatePoolCall 2 4480 0 0x100000;
              FetchCall 4480 0x100000 example_fetch]
             an_image 0x1122 0 []);
      reflexivity.
  - apply (@nothing_follows_a_successful_handshake uefi64 Seen
             (ready (with_stale_handshakes 1 example_script)) an_image
             nothing_seen
             [ProbeCall (example_probe 0); AllocatePoolCall 2 4480 0 0x100000;
              FetchCall 4480 0x100000 example_fetch]
             an_image 0x1122 (@EFI_INVALID_PARAMETER uefi64)).
    + reflexivity.
    + discriminate.
Defined.

(** X6 at the example firmware: key 0x1122, 48-byte descriptors,
    version 1. *)
Lemma get_memory_map_returns_last_reply_witness :
  let res :=
    @get_memory_map_c.get_memory_map uefi64 Seen (ready example_script)
      caller_locations (boot nothing_seen) in
  get_memory_map_c.MapKey (snd (fst res)) = Some 0x1122 /\
  get_memory_map_c.DescriptorSize (snd (fst res)) = Some 48 /\
  get_memory_map_c.DescriptorVersion (snd (fst res)) = Some 1.
Proof.
  apply (proj2 (@get_memory_map_returns_last_reply uefi64 Seen
                  (ready example_script) caller_locations nothing_seen)
           4864 0x100000 example_fetch).
  reflexivity.
Defined.

(** X7 at the example firmware. *)
Lemma fetch_uses_the_allocated_buffer_witness :
  (exists pre' ty st,
     [ProbeCall (example_probe 0xCC); AllocatePoolCall 2 4864 0 0x100000]
     = pre' ++ [AllocatePoolCall ty 4864 st 0x100000] /\
     @EFI_ERROR uefi64 st = false) /\
  (exists pre' ty st,
     [ProbeCall (example_probe 0); AllocatePoolCall 2 4480 0 0x100000]
     = pre' ++ [AllocatePoolCall ty 4480 st 0x100000] /\
     @EFI_ERROR uefi64 st = false).
Proof.
  split.
  - apply (proj1 (@fetch_uses_the_allocated_buffer uefi64 Seen
                    (ready example_script) caller_locations an_image
                    nothing_seen)
             [ProbeCall (example_probe 0xCC);
              AllocatePoolCall 2 4864 0 0x100000]
             4864 0x100000 example_fetch []).
    reflexivity.
  - apply (proj2 (@fetch_uses_the_allocated_buffer uefi64 Seen
                    (ready example_script) caller_locations an_image
                    nothing_seen)
             [ProbeCall (example_probe 0);
              AllocatePoolCall 2 4480 0 0x100000]
             4480 0x100000 example_fetch
             [ExitBootServicesCall an_image 0x1122 0]).
    reflexivity.
Defined.

(** X8 at a firmware whose buffer is misaligned (get_memory_map returns
    EFI_DEVICE_ERROR) and at one that refuses 8 handshakes
    (exit_boot_services returns EFI_ABORTED). *)
Lemma failure_is_never_silent_witness :
  ends_with_failure
    (logged (snd (@get_memory_map_c.get_memory_map uefi64 Seen
                    (ready (with_pool_base 0x100001 example_script))
                    caller_locations (boot nothing_seen)))) /\
  ends_with_failure
    (logged (snd (@exit_boot_services_c.exit_boot_services uefi64 Seen
                    (ready (with_stale_handshakes 8 example_script))
                    an_image (boot nothing_seen)))).
Proof.
  split.
  - apply (proj1 (@failure_is_never_silent uefi64 Seen
                    (ready (with_pool_base 0x100001 example_script))
                    caller_locations an_image nothing_seen)).
    vm_compute. discriminate.
  - apply (proj2 (@failure_is_never_silent uefi64 Seen
                    (ready (with_stale_handshakes 8 example_script))
                    caller_locations an_image nothing_seen)).
    vm_compute. discriminate.
Defined.

(** X10 at the example firmware. *)
Lemma exit_success_means_handshake_success_witness :
  exists pre sz b r,
    calls (snd (@exit_boot_services_c.exit_boot_services uefi64 Seen
                  (ready example_script) an_image (boot nothing_seen)))
    = pre ++ [FetchCall sz b r;
              ExitBootServicesCall an_image (reply_MapKey r)
                (@EFI_SUCCESS uefi64)].
Proof.
  apply (@exit_success_means_handshake_success uefi64 Seen uefi64_laws
           (ready example_script) an_image nothing_seen).
  - discriminate.
  - reflexivity.
  - check_calls.
Defined.

(** X11 at a firmware whose first 3 fetches fail: at the second probe of
    get_memory_map, and of exit_boot_services after a refused handshake. *)
Lemma every_pass_starts_with_nothing_allocated_witness :
  @outstanding uefi64 []
    [ProbeCall (example_probe 0xCC); AllocatePoolCall 2 4864 0 0x100000;
     FetchCall 4864 0x100000
       {| reply_Status := @EFI_BUFFER_TOO_SMALL uefi64;
          reply_MemoryMapSize := 4864 + 48 * 32; reply_MapKey := 0xCC;
          reply_DescriptorSize := 48; reply_DescriptorVersion := 1 |};
     FreePoolCall 0x100000] = [] /\
  @outstanding uefi64 []
    [ProbeCall (example_probe 0); AllocatePoolCall 2 4480 0 0x100000;
     FetchCall 4480 0x100000 example_fetch;
     ExitBootServicesCall an_image 0x1122 (@EFI_INVALID_PARAMETER uefi64);
     FreePoolCall 0x100000] = [].
Proof.
  split.
  - eapply (proj1 (@every_pass_starts_with_nothing_allocated uefi64 Seen
                     (ready (with_fetch_failures 3 example_script))
                     caller_locations an_image nothing_seen)).
    vm_compute. reflexivity.
  - eapply (proj2 (@every_pass_starts_with_nothing_allocated uefi64 Seen
                     (ready (with_stale_handshakes 1 example_script))
                     caller_locations an_image nothing_seen)).
    vm_compute. reflexivity.
Defined.

(** X12 at the example firmware (4096 + 48 * 16 = 4864 bytes asked) and
    at a firmware whose probe reports 2^64 - 16 bytes (752 bytes asked). *)
Lemma allocation_size_wraps_on_overflow_witness :
  (exists pre' r,
     [ProbeCall (example_probe 0xCC)] = pre' ++ [ProbeCall r] /\
     (0 <= reply_MemoryMapSize r -> 0 <= reply_DescriptorSize r ->
      let sum := reply_MemoryMapSize r + reply_DescriptorSize r * 16 in
      (sum < 2 ^ 64 -> 4864 = sum /\ reply_MemoryMapSize r <= 4864) /\
      (2 ^ 64 <= sum -> 4864 < sum))) /\
  (exists pre' r,
     [ProbeCall
        {| reply_Status := @EFI_BUFFER_TOO_SMALL uefi64;
           reply_MemoryMapSize := 2 ^ 64 - 16; reply_MapKey := 0;
           reply_DescriptorSize := 48; reply_DescriptorVersion := 1 |}]
     = pre' ++ [ProbeCall r] /\
     (0 <= reply_MemoryMapSize r -> 0 <= reply_DescriptorSize r ->
      let sum := reply_MemoryMapSize r + reply_DescriptorSize r * 8 in
      (sum < 2 ^ 64 -> 368 = sum /\ reply_MemoryMapSize r <= 368) /\
      (2 ^ 64 <= sum -> 368 < sum))).
Proof.
  split.
  - apply (proj1 (@allocation_size_wraps_on_overflow uefi64 Seen
                    (ready example_script) caller_locations an_image
                    nothing_seen)
             [ProbeCall (example_probe 0xCC)] 2 4864 0 0x100000
             [FetchCall 4864 0x100000 example_fetch]).
    reflexivity.
  - apply (proj2 (@allocation_size_wraps_on_overflow uefi64 Seen
                    (ready (with_probe_size (2 ^ 64 - 16) example_script))
                    caller_locations an_image nothing_seen)
             [ProbeCall
                {| reply_Status := @EFI_BUFFER_TOO_SMALL uefi64;
                   reply_MemoryMapSize := 2 ^ 64 - 16; reply_MapKey := 0;
                   reply_DescriptorSize := 48;
                   reply_DescriptorVersion := 1 |}]
             2 368 0 0x100000
             [FetchCall 368 0x100000 example_fetch;
              ExitBootServicesCall an_image 0x1122 0]).
    reflexivity.
Defined.

(** ** What follows a failed fetch *)

Section AfterFailedFetch.
Context `{uefi_headers}.

Ltac invert_pass :=
  repeat match goal with
  | P : map_pass _ _ _ |- _ => inversion P; subst; clear P
  | P : exit_pass _ _ _ |- _ => inversion P; subst; clear P
  | A : acquisition _ _ _ |- _ => inversion A; subst; clear A
  end.

Ltac locate E pre :=
  destruct pre as [|? [|? [|? [|? [|? pre]]]]]; cbn in E;
  inversion E; subst; clear E;
  try match goal with
      | E' : [] = ?l ++ _ :: _ |- _ => destruct l; discriminate E'
      end.

Lemma map_pass_starts_with_probe (t : list Call) (fl : Flow)
  (h : option (pointer * UINTN)) :
  map_pass t fl h -> exists r rest, t = ProbeCall r :: rest.
Proof.
  intros P. invert_pass; cbn; now eexists _, _.
Qed.

(** A run with no pass left has no call and ends in EFI_DEVICE_ERROR; a
    run with a pass left starts with the probe of that pass. *)
Lemma map_run_starts_with_probe (left : nat) (t : list Call)
  (s : EFI_STATUS) (h : option (pointer * UINTN)) :
  map_run left t s h ->
  (t = [] /\ s = EFI_DEVICE_ERROR /\ left = O) \/
  ((0 < left)%nat /\ exists r rest, t = ProbeCall r :: rest).
Proof.
  destruct 1 as [|left t s h P|left t t' s h P R].
  - now left.
  - right. split; [lia|]. now apply (map_pass_starts_with_probe _ _ _ P).
  - right. split; [lia|].
    destruct (map_pass_starts_with_probe _ _ _ P) as (r & rest & ->).
    now exists r, (rest ++ t').
Qed.

Lemma map_pass_after_failed_fetch (t : list Call) (fl : Flow)
  (h : option (pointer * UINTN)) (pre post : list Call) (sz : UINTN)
  (b : pointer) (r : MemoryMapReply) :
  map_pass t fl h ->
  t = pre ++ FetchCall sz b r :: post ->
  EFI_ERROR (reply_Status r) = true ->
  post = [FreePoolCall b] /\ fl = Fallthrough /\
  count is_probe pre = 1%nat.
Proof.
  intros P. invert_pass; intros E He; locate E pre; try congruence.
  repeat split.
Qed.

(** In a run with [left] passes left, a failed fetch of the last pass has
    [left] probes before it and only the release after it; a failed fetch
    of an earlier pass has fewer probes before it and is followed by the
    release and the probe of the next pass. *)
Lemma map_run_after_failed_fetch (left : nat) (t : list Call)
  (s : EFI_STATUS) (h : option (pointer * UINTN)) :
  map_run left t s h ->
  forall pre post sz b r,
  t = pre ++ FetchCall sz b r :: post ->
  EFI_ERROR (reply_Status r) = true ->
  exists post',
    post = FreePoolCall b :: post' /\
    ((post' = [] /\ s = EFI_DEVICE_ERROR /\ count is_probe pre = left) \/
     ((count is_probe pre < left)%nat /\
      exists r' rest, post' = ProbeCall r' :: rest)).
Proof.
  induction 1 as [|left t s h P|left t t' s h P R IH];
    intros pre post sz b r E He.
  - destruct pre; discriminate.
  - destruct (map_pass_after_failed_fetch _ _ _ _ _ _ _ _ P E He)
      as (_ & Efl & _).
    discriminate.
  - apply app_split_cases in E.
    destruct E as [(x & E & ->) | (x & -> & E)].
    + destruct (map_pass_after_failed_fetch _ _ _ _ _ _ _ _ P E He)
        as (-> & _ & Ec).
      exists t'. split; [reflexivity|]. rewrite Ec.
      destruct (map_run_starts_with_probe _ _ _ _ R)
        as [(-> & -> & ->) | (Hl & Hr)].
      * left. repeat split.
      * right. split; [lia | exact Hr].
    + destruct (map_pass_fallthrough _ _ P) as (_ & _ & _ & Ep & _).
      rewrite count_app, Ep.
      destruct (IH x post sz b r E He)
        as (post' & -> & [(-> & -> & Ec) | (Hc & Hr)]).
      * exists []. split; [reflexivity|]. left. repeat split. lia.
      * exists post'. split; [reflexivity|]. right. split; [lia | exact Hr].
Qed.

Lemma exit_pass_starts_with_probe (ImageHandle : EFI_HANDLE)
  (t : list Call) (fl : Flow) :
  exit_pass ImageHandle t fl -> exists r rest, t = ProbeCall r :: rest.
Proof.
  intros P. invert_pass; cbn; now eexists _, _.
Qed.

Lemma exit_run_starts_with_probe (ImageHandle : EFI_HANDLE) (left : nat)
  (t : list Call) (s : EFI_STATUS) :
  exit_run ImageHandle left t s ->
  (t = [] /\ s = EFI_ABORTED /\ left = O) \/
  ((0 < left)%nat /\ exists r rest, t = ProbeCall r :: rest).
Proof.
  destruct 1 as [|left t s P|left t t' s P R].
  - now left.
  - right. split; [lia|]. now apply (exit_pass_starts_with_probe _ _ _ P).
  - right. split; [lia|].
    destruct (exit_pass_starts_with_probe _ _ _ P) as (r & rest & ->).
    now exists r, (rest ++ t').
Qed.

Lemma exit_pass_after_failed_fetch (ImageHandle : EFI_HANDLE)
  (t : list Call) (fl : Flow) (pre post : list Call) (sz : UINTN)
  (b : pointer) (r : MemoryMapReply) :
  exit_pass ImageHandle t fl ->
  t = pre ++ FetchCall sz b r :: post ->
  EFI_ERROR (reply_Status r) = true ->
  post = [FreePoolCall b] /\ fl = Fallthrough /\
  count is_probe pre = 1%nat.
Proof.
  intros P. invert_pass; intros E He; locate E pre; try congruence.
  repeat split.
Qed.

Lemma exit_run_after_failed_fetch (ImageHandle : EFI_HANDLE) (left : nat)
  (t : list Call) (s : EFI_STATUS) :
  exit_run ImageHandle left t s ->
  forall pre post sz b r,
  t = pre ++ FetchCall sz b r :: post ->
  EFI_ERROR (reply_Status r) = true ->
  exists post',
    post = FreePoolCall b :: post' /\
    ((post' = [] /\ s = EFI_ABORTED /\ count is_probe pre = left) \/
     ((count is_probe pre < left)%nat /\
      exists r' rest, post' = ProbeCall r' :: rest)).
Proof.
  induction 1 as [|left t s P|left t t' s P R IH];
    intros pre post sz b r E He.
  - destruct pre; discriminate.
  - destruct (exit_pass_after_failed_fetch _ _ _ _ _ _ _ _ P E He)
      as (_ & Efl & _).
    discriminate.
  - apply app_split_cases in E.
    destruct E as [(x & E & ->) | (x & -> & E)].
    + destruct (exit_pass_after_failed_fetch _ _ _ _ _ _ _ _ P E He)
        as (-> & _ & Ec).
      exists t'. split; [reflexivity|]. rewrite Ec.
      destruct (exit_run_starts_with_probe _ _ _ _ R)
        as [(-> & -> & ->) | (Hl & Hr)].
      * left. repeat split.
      * right. split; [lia | exact Hr].
    + rewrite count_app, (exit_pass_fallthrough_probe _ _ P).
      destruct (IH x post sz b r E He)
        as (post' & -> & [(-> & -> & Ec) | (Hc & Hr)]).
      * exists []. split; [reflexivity|]. left. repeat split. lia.
      * exists post'. split; [reflexivity|]. right. split; [lia | exact Hr].
Qed.

End AfterFailedFetch.

(** X13. In both functions a fetch that fails is followed by the release
    of its buffer.  When it is the fetch of the 8th pass (8 probes were
    made up to it) nothing more is called, and the function returns
    EFI_DEVICE_ERROR (get_memory_map) or EFI_ABORTED
    (exit_boot_services).  When it is the fetch of an earlier pass (fewer
    than 8 probes were made up to it) the release is followed by a new
    probe: the next pass starts from the size probe, and
    exit_boot_services makes no handshake in the pass whose fetch
    failed. *)
Theorem failed_fetch_restarts_from_the_probe `{uefi_headers} {F : Type}
  (gST : option (EFI_SYSTEM_TABLE F)) (args : get_memory_map_c.OutParams)
  (ImageHandle : EFI_HANDLE) (f : F) :
  (let res := get_memory_map_c.get_memory_map gST args (boot f) in
   forall pre sz b r post,
     calls (snd res) = pre ++ FetchCall sz b r :: post ->
     EFI_ERROR (reply_Status r) = true ->
     exists post',
       post = FreePoolCall b :: post' /\
       ((post' = [] /\ fst (fst res) = EFI_DEVICE_ERROR /\
         count is_probe pre = 8%nat) \/
        ((count is_probe pre < 8)%nat /\
         exists r' rest, post' = ProbeCall r' :: rest))) /\
  (let res :=
     exit_boot_services_c.exit_boot_services gST ImageHandle (boot f) in
   forall pre sz b r post,
     calls (snd res) = pre ++ FetchCall sz b r :: post ->
     EFI_ERROR (reply_Status r) = true ->
     exists post',
       post = FreePoolCall b :: post' /\
       ((post' = [] /\ fst res = EFI_ABORTED /\
         count is_probe pre = 8%nat) \/
        ((count is_probe pre < 8)%nat /\
         exists r' rest, post' = ProbeCall r' :: rest))).
Proof.
  cbn zeta. split; intros pre sz b r post E He.
  - destruct (get_memory_map_run gST args f) as [(_ & E0) | (h & R & _)].
    { rewrite E0 in E. now apply not_in_empty_trace in E. }
    apply (map_run_after_failed_fetch _ _ _ _ R pre post sz b r E He).
  - destruct (exit_boot_services_run gST ImageHandle f) as [E0 | R].
    { rewrite E0 in E. now apply not_in_empty_trace in E. }
    apply (exit_run_after_failed_fetch _ _ _ _ R pre post sz b r E He).
Qed.

(** X13 at a firmware whose first fetch fails, for get_memory_map (1 probe
    before the failed fetch, a new probe after the release), and at one
    whose 8 fetches fail, at the 8th fetch of exit_boot_services (8 probes
    before it, nothing after the release). *)
Lemma failed_fetch_restarts_from_the_probe_witness :
  (let pre :=
     [ProbeCall (example_probe 0xCC); AllocatePoolCall 2 4864 0 0x100000] in
   exists post',
     [FreePoolCall 0x100000; ProbeCall (example_probe 0xCC);
      AllocatePoolCall 2 4864 0 0x101000;
      FetchCall 4864 0x101000
        {| reply_Status := @EFI_SUCCESS uefi64; reply_MemoryMapSize := 4200;
           reply_MapKey := 0x1123; reply_DescriptorSize := 48;
           reply_DescriptorVersion := 1 |}]
     = FreePoolCall 0x100000 :: post' /\
     ((post' = [] /\
       fst (fst (@get_memory_map_c.get_memory_map uefi64 Seen
                   (ready (with_fetch_failures 1 example_script))
                   caller_locations (boot nothing_seen)))
       = @EFI_DEVICE_ERROR uefi64 /\
       count is_probe pre = 8%nat) \/
      ((count is_probe pre < 8)%nat /\
       exists r' rest, post' = ProbeCall r' :: rest))) /\
  (let res :=
     @exit_boot_services_c.exit_boot_services uefi64 Seen
       (ready (with_fetch_failures 8 example_script)) an_image
       (boot nothing_seen) in
   exists post',
     [FreePoolCall 0x107000] = FreePoolCall 0x107000 :: post' /\
     ((post' = [] /\
       fst res = @EFI_ABORTED uefi64 /\
       count is_probe (firstn 30 (calls (snd res))) = 8%nat) \/
      ((count is_probe (firstn 30 (calls (snd res))) < 8)%nat /\
       exists r' rest, post' = ProbeCall r' :: rest))).
Proof.
  split.
  - apply (proj1 (@failed_fetch_restarts_from_the_probe uefi64 Seen
                    (ready (with_fetch_failures 1 example_script))
                    caller_locations an_image nothing_seen)
             [ProbeCall (example_probe 0xCC);
              AllocatePoolCall 2 4864 0 0x100000]
             4864 0x100000
             {| reply_Status := @EFI_BUFFER_TOO_SMALL uefi64;
                reply_MemoryMapSize := 4864 + 48 * 32; reply_MapKey := 0xCC;
                reply_DescriptorSize := 48; reply_DescriptorVersion := 1 |});
      reflexivity.
  - apply (proj2 (@failed_fetch_restarts_from_the_probe uefi64 Seen
                    (ready (with_fetch_failures 8 example_script))
                    caller_locations an_image nothing_seen)
             (firstn 30
                (calls (snd (@exit_boot_services_c.exit_boot_services
                               uefi64 Seen
                               (ready (with_fetch_failures 8 example_script))
                               an_image (boot nothing_seen)))))
             4480 0x107000
             {| reply_Status := @EFI_BUFFER_TOO_SMALL uefi64;
                reply_MemoryMapSize := 4480 + 48 * 32; reply_MapKey := 0;
                reply_DescriptorSize := 48; reply_DescriptorVersion := 1 |}).
    + vm_compute. reflexivity.
    + reflexivity.
Defined.
